(** * fasta.py: reading and writing FASTA files

    A shallow embedding of [fasta.py] (the [Record] class, [parse],
    [to_dict], [get_compression_type] and [get_open_func]) together with
    theorems about the behaviour of that code.

    Python values are modelled as follows.
    - A [str] is a list of Unicode code points ([N]); [u "..."] writes an
      ASCII literal.  [bytes] are lists of [Byte.byte].
    - [None] versus a value is an [option].
    - A [dict] that is only looked up is a [gmap]; a [dict] that is
      iterated in insertion order is an association list.
    - An exception is a value of type [exn]; code that may raise returns
      a [result]. *)

From Stdlib Require Import ZArith NArith Ascii String.
From Stdlib.Strings Require Import Byte.
From stdpp Require Import gmap list.

Local Open Scope list_scope.

(** ** Python strings *)

(** A character is its code point; a string is the list of its
    characters. *)
Definition char := N.
Definition str := list char.

(** The string of an ASCII literal. *)
Definition u (s : string) : str :=
  map N_of_ascii (list_ascii_of_string s).

(** The line feed, the space and the FASTA header mark. *)
Definition LF : char := 10%N.
Definition SP : char := 32%N.
Definition GT : char := 62%N.

(** [str.isspace] on one code point: the characters that [str.strip] and
    [str.split] treat as whitespace, which are U+0009 to U+000D, U+001C
    to U+0020, U+0085, U+00A0, U+1680, U+2000 to U+200A, U+2028, U+2029,
    U+202F, U+205F and U+3000. *)
Definition isspace (c : char) : bool :=
  ((9 <=? c) && (c <=? 13) || (28 <=? c) && (c <=? 32)
   || (c =? 133) || (c =? 160) || (c =? 5760)
   || (8192 <=? c) && (c <=? 8202)
   || (c =? 8232) || (c =? 8233) || (c =? 8239) || (c =? 8287)
   || (c =? 12288))%N.

(** [s.startswith(prefix)] for one prefix. *)
Fixpoint startswith `{EqDecision A} (s prefix : list A) {struct prefix}
  : bool :=
  match prefix, s with
  | [], _ => true
  | _ :: _, [] => false
  | p :: prefix', c :: s' => bool_decide (c = p) && startswith s' prefix'
  end.

(** [s.lstrip()], [s.rstrip()] and [s.strip()]. *)
Fixpoint lstrip (s : str) : str :=
  match s with
  | [] => []
  | c :: s' => if isspace c then lstrip s' else s
  end.

Definition rstrip (s : str) : str := reverse (lstrip (reverse s)).

Definition strip (s : str) : str := rstrip (lstrip s).

(** [s.split()]: the maximal runs of non-whitespace characters. *)
Fixpoint split (s : str) : list str :=
  match s with
  | [] => []
  | c :: s' =>
      if isspace c then split s'
      else match s' with
           | [] => [[c]]
           | c' :: _ =>
               if isspace c' then [c] :: split s'
               else match split s' with
                    | w :: ws => (c :: w) :: ws
                    | [] => [[c]]
                    end
           end
  end.

(** [sep.join(lst)]. *)
Fixpoint join (sep : str) (lst : list str) : str :=
  match lst with
  | [] => []
  | [x] => x
  | x :: rest => x ++ sep ++ join sep rest
  end.

(** [s[i:j]] for indices [0 <= i] and [0 <= j]; the only slices the
    module takes have such indices. *)
Definition slice (s : str) (i j : Z) : str :=
  drop (Z.to_nat i) (take (Z.to_nat j) s).

(** [s[i:]] for [0 <= i]. *)
Definition slice_from (s : str) (i : Z) : str := drop (Z.to_nat i) s.

(** [len(s)]. *)
Definition len {A} (s : list A) : Z := Z.of_nat (length s).

(** [range(start, stop, step)] for [step <> 0]. *)
Definition range_len (start stop step : Z) : Z :=
  if (0 <? step)%Z then Z.max 0 ((stop - start + step - 1) / step)
  else Z.max 0 ((start - stop - step - 1) / (- step)).

Definition range (start stop step : Z) : list Z :=
  map (fun k => (start + Z.of_nat k * step)%Z)
      (seq 0 (Z.to_nat (range_len start stop step))).

(** Iterating over a text file object.  [text] is the decoded content
    after the newline translation of text mode, so every line ends at a
    line feed; the text is cut after every line feed, and each line keeps
    its terminator. *)
Fixpoint iter_lines (text : str) : list str :=
  match text with
  | [] => []
  | c :: text' =>
      if bool_decide (c = LF) then [c] :: iter_lines text'
      else match iter_lines text' with
           | l :: ls => (c :: l) :: ls
           | [] => [[c]]
           end
  end.

(** ** class Record *)

Record record := Record_ {
  self_id : option str;
  self_seq : str;
  self_desc : option str
}.

(** The argument [wrap] of [format]: an [int] or [None]. *)
Inductive wrap_arg := WNone | WInt (n : Z).

(** Truth value of an object in a condition. *)
Definition truthy_wrap (w : wrap_arg) : bool :=
  match w with
  | WNone => false
  | WInt n => negb (n =? 0)%Z
  end.

(** The integer in a [wrap] that passed the test [if wrap:]. *)
Definition wrap_int (w : wrap_arg) : Z :=
  match w with
  | WNone => 0
  | WInt n => n
  end.

Definition truthy_opt_str (o : option str) : bool :=
  match o with
  | None | Some [] => false
  | Some (_ :: _) => true
  end.

(** [f'{x}'] for a value that is a string or [None]. *)
Definition fmt (o : option str) : str :=
  match o with
  | Some s => s
  | None => u "None"
  end.

(** [Record.description] (a property). *)
Definition description (self : record) : str :=
  let lst := [u ">" ++ fmt (self_id self)] in
  let lst := if truthy_opt_str (self_desc self)
             then lst ++ [fmt (self_desc self)] else lst in
  join (u " ") lst.

(** [Record.format].  The argument is [None] when the caller passes no
    [wrap], in which case the default 70 applies. *)
Definition default_wrap : wrap_arg := WInt 70.

Definition format (self : record) (wrap : option wrap_arg) : str :=
  let wrap := default default_wrap wrap in
  let lst := [description self; [LF]] in
  let lst :=
    if truthy_wrap wrap then
      lst ++ map (fun i => slice (self_seq self) i (i + wrap_int wrap)
                             ++ [LF])
                 (range 0 (len (self_seq self)) (wrap_int wrap))
    else lst ++ [self_seq self; [LF]] in
  concat lst.

(** [Record.__str__]. *)
Definition __str__ (self : record) : str :=
  rstrip (format self (Some (WInt 70))).

(** [Record.__len__]. *)
Definition __len__ (self : record) : Z := len (self_seq self).

(** [Record.__iter__]: the items that [iter(self.seq)] yields, each a
    string of one character. *)
Definition __iter__ (self : record) : list str :=
  map (fun c => [c]) (self_seq self).

(** [sub in s] for strings: [sub] occurs in [s] as a substring. *)
Fixpoint str_contains (s sub : str) : bool :=
  startswith s sub
  || match s with
     | [] => false
     | _ :: s' => str_contains s' sub
     end.

(** [Record.__contains__]. *)
Definition __contains__ (self : record) (char : str) : bool :=
  str_contains (self_seq self) char.

(** ** parse *)

(** The local variables of the generator. *)
Record locals := Locals {
  seqid : option str;
  desc : option str;
  seq_ : list str
}.

Definition parse_init : locals :=
  {| seqid := None; desc := None; seq_ := [] |}.

(** What [if seq: yield Record(seqid, "".join(seq), desc)] yields. *)
Definition yield_if_seq (st : locals) : list record :=
  match seq_ st with
  | [] => []
  | _ :: _ => [Record_ (seqid st) (concat (seq_ st)) (desc st)]
  end.

(** One iteration of [for line in fh]: the records yielded and the new
    values of the locals.  [line.split()[0]] cannot fail on a line that
    starts with [>] (see [split_header_nonempty]), so [[0]] is a [hd]. *)
Definition parse_line (st : locals) (line : str) : list record * locals :=
  if startswith line (u ">") then
    let seqid' := slice_from (hd [] (split line)) 1 in
    let desc' := strip (slice_from line (len seqid' + 1)) in
    (yield_if_seq st,
     {| seqid := Some seqid'; desc := Some desc'; seq_ := [] |})
  else
    ([], {| seqid := seqid st; desc := desc st;
            seq_ := seq_ st ++ [strip line] |}).

Fixpoint parse_loop (st : locals) (lines : list str)
  : list record * locals :=
  match lines with
  | [] => ([], st)
  | line :: lines' =>
      let '(out, st') := parse_line st line in
      let '(outs, st'') := parse_loop st' lines' in
      (out ++ outs, st'')
  end.

(** The records that [parse] yields when the file object delivers
    [lines] and then ends. *)
Definition parse_lines (lines : list str) : list record :=
  let '(out, st) := parse_loop parse_init lines in
  out ++ yield_if_seq st.

(** The same for a file whose decoded text is [text]. *)
Definition parse_text (text : str) : list record :=
  parse_lines (iter_lines text).

(** ** get_compression_type *)

(** The argument of [bytes.startswith]: a prefix, or a tuple of prefixes
    of which any one may match. *)
Inductive prefix_arg :=
  | Bytes (b : list byte)
  | Tuple (t : list (list byte)).

#[global] Instance byte_eq_dec : EqDecision byte := Byte.byte_eq_dec.

Definition bytes_startswith (s : list byte) (p : prefix_arg) : bool :=
  match p with
  | Bytes b => startswith s b
  | Tuple t => existsb (startswith s) t
  end.

(** The dict [d], in insertion order, which is the order of [for
    first_bytes in d]. *)
Definition d : list (prefix_arg * str) :=
  [ (Tuple [[x1f]; [x8b]; [x08]], u "gz");
    (Tuple [[x42]; [x5a]; [x68]], u "bz2");
    (Tuple [[x50]; [x4b]; [x03]; [x04]], u "zip");
    (Bytes [x28; xb5; x2f; xfd], u "zstandard");
    (Bytes [x04; x22; x4d; x18], u "lz4") ].

Definition max_len : nat := 4.

(** The loop over [d] with its [break]. *)
Fixpoint first_match (file_start : list byte) (d : list (prefix_arg * str))
    (compression_type : str) : str :=
  match d with
  | [] => compression_type
  | (first_bytes, kind) :: d' =>
      if bytes_startswith file_start first_bytes then kind
      else first_match file_start d' compression_type
  end.

(** [get_compression_type] once the file is open: [content] is all the
    bytes of the file, of which [fh.read(max_len)] takes the first four
    or fewer. *)
Definition sniff (content : list byte) : str :=
  let file_start := take max_len content in
  first_match file_start d (u "plain").

(** ** Exceptions *)

(** The exceptions of the module: [OSError] from [open] on a path that
    cannot be opened, [KeyError] from a dict look-up, [ImportError] from
    [get_open_func], and whatever a decoder raises while it reads. *)
Inductive exn :=
  | OSError (filename : str)
  | KeyError (key : str)
  | ImportError (msg : str)
  | DecoderError (name : str).

(** The outcome of a call that may raise. *)
Inductive result (A : Type) :=
  | Ok (a : A)
  | Raise (e : exn).
Arguments Ok {A} a.
Arguments Raise {A} e.

#[global] Instance result_ret : MRet result := fun A a => Ok a.

#[global] Instance result_bind : MBind result := fun A B k r =>
  match r with
  | Ok a => k a
  | Raise e => Raise e
  end.

(** The functions that [get_open_func] can return. *)
Inductive open_func :=
  | gzip_open
  | bz2_open
  | builtin_open
  | zstandard_open
  | lz4_open.

Section Process.

(** The file system: the bytes of the file at each path that can be
    opened for reading; [open] raises on any other path. *)
Variable fs : gmap str (list byte).

(** The flags set by the two [try: import] blocks when the module is
    loaded. *)
Variable HAS_LZ4 : bool.
Variable HAS_ZSTANDARD : bool.

(** [for line in func(filename, 'rt')]: the lines delivered, and the
    exception that ends the iteration if there is one. *)
Variable open_rt : open_func -> str -> list str * option exn.

Definition get_compression_type (filename : str) : result str :=
  match fs !! filename with
  | None => Raise (OSError filename)
  | Some content => Ok (sniff content)
  end.

Definition open_funcs : gmap str (option open_func) :=
  list_to_map
    [ (u "gz", Some gzip_open);
      (u "bz2", Some bz2_open);
      (u "plain", Some builtin_open);
      (u "zstandard", if HAS_ZSTANDARD then Some zstandard_open else None);
      (u "lz4", if HAS_LZ4 then Some lz4_open else None) ].

(** The second half of [get_open_func]: the look-up in [open_funcs]
    and the test [func == None]. *)
Definition lookup_open_func (compression_type filename : str)
  : result open_func :=
  match open_funcs !! compression_type with
  | None => Raise (KeyError compression_type)
  | Some None =>
      Raise (ImportError
               (compression_type ++ u " is required for: " ++ filename))
  | Some (Some func) => Ok func
  end.

Definition get_open_func (filename : str) : result open_func :=
  compression_type ← get_compression_type filename;
  lookup_open_func compression_type filename.

(** [parse(filename)], consumed to its end: the records yielded, and
    the exception that ends the generator if there is one. *)
Definition parse (filename : str) : list record * option exn :=
  match get_open_func filename with
  | Raise e => ([], Some e)
  | Ok func =>
      match open_rt func filename with
      | (lines, None) => (parse_lines lines, None)
      | (lines, Some e) => (fst (parse_loop parse_init lines), Some e)
      end
  end.

End Process.

(** ** to_dict *)

(** [{record.id: record for record in sequences}]: each record is
    assigned to its key in turn. *)
Definition to_dict (sequences : list record) : gmap (option str) record :=
  foldl (fun m record => <[self_id record := record]> m) ∅ sequences.

(** * Vocabulary of the properties *)

(** Membership of a byte in the bytes of a tuple key. *)
Definition in_tuple (b : byte) (t : list byte) : bool :=
  existsb (fun x => bool_decide (b = x)) t.

(** Strings of whitespace only, and strings without whitespace. *)
Definition all_space (s : str) : Prop := Forall (fun c => isspace c = true) s.
Definition no_space (s : str) : Prop := Forall (fun c => isspace c = false) s.

(** A string that [strip] leaves alone. *)
Definition trimmed (s : str) : Prop := lstrip s = s /\ rstrip s = s.

(** What can follow a token: nothing, or text that starts with
    whitespace. *)
Definition starts_with_space (s : str) : Prop :=
  s = [] \/ exists c s', s = c :: s' /\ isspace c = true.

(** The test [line.startswith('>')] of the loop. *)
Definition is_header (line : str) : bool := startswith line (u ">").

(** The records of the whole run from a state, with the final [if seq:
    yield]. *)
Definition run_from (st : locals) (lines : list str) : list record :=
  fst (parse_loop st lines) ++ yield_if_seq (snd (parse_loop st lines)).

(** The input is at a record boundary: it has ended, or its next line is
    a header. *)
Definition at_boundary (lines : list str) : bool :=
  match lines with
  | [] => true
  | h :: _ => is_header h
  end.

(** The record of the docstrings, as a file. *)
Definition ex_text : str :=
  u ">NP_055309.2 TNRC6A" ++ [LF] ++ u "MRELEAKAT" ++ [LF].

(** The sequence lines that [format] writes, without their line feeds:
    the slices of the loop, or the whole sequence. *)
Definition seq_lines (self : record) (wrap : wrap_arg) : list str :=
  if truthy_wrap wrap then
    map (fun i => slice (self_seq self) i (i + wrap_int wrap))
        (range 0 (len (self_seq self)) (wrap_int wrap))
  else [self_seq self].

(** The [k]-th piece of width [m]. *)
Definition chunk (m : nat) (s : str) (k : nat) : str :=
  take m (drop (k * m) s).

(** The number of pieces of width [N] in a length [L], which is the
    length of [range(0, L, N)]. *)
Definition chunk_count (L N : Z) : nat := Z.to_nat ((L + N - 1) / N).

(** A line as the file object delivers it: a line feed can only be its
    last character. *)
Definition line_shape (l : str) : Prop :=
  exists l0, (LF ∉ l0) /\ (l = l0 \/ l = l0 ++ [LF]).

(** A residue: any character that is neither whitespace nor [>]. *)
Definition is_residue (c : char) : bool :=
  negb (isspace c) && negb (bool_decide (c = GT)).

(** The records that well-formed input gives: an id without whitespace,
    a stripped one-line description, and a sequence of at least one
    residue. *)
Definition canonical (r : record) : Prop :=
  (exists tok, self_id r = Some tok /\ no_space tok)
  /\ (exists d, self_desc r = Some d /\ trimmed d /\ (LF ∉ d))
  /\ self_seq r <> []
  /\ Forall (fun c => is_residue c = true) (self_seq r).

(** Well-formed input: a sequence of records, each a header line followed
    by lines of residues with at least one residue in all.  Sequence
    lines may carry whitespace at their ends (the line terminator), and
    blank lines may occur after a header line. *)
Inductive wf_state :=
  | Start
  | HeaderSeen
  | InSequence.

Fixpoint wf_from (q : wf_state) (lines : list str) : bool :=
  match lines with
  | [] => match q with HeaderSeen => false | _ => true end
  | l :: ls =>
      if is_header l then
        match q with HeaderSeen => false | _ => wf_from HeaderSeen ls end
      else
        forallb is_residue (strip l)
        && match q with
           | Start => false
           | HeaderSeen =>
               wf_from (match strip l with [] => HeaderSeen
                                        | _ :: _ => InSequence end) ls
           | InSequence => wf_from InSequence ls
           end
  end.

(** Well-formedness of the decoded text of a file. *)
Definition well_formed (text : str) : bool :=
  wf_from Start (iter_lines text).

(** A [wrap] that is a width: no argument, [None], or an [int] that is
    not negative. *)
Definition is_width (wrap : option wrap_arg) : Prop :=
  match wrap with
  | Some (WInt n) => (0 <= n)%Z
  | _ => True
  end.

(** The invariant of the locals while well-formed input is read. *)
Definition header_ok (st : locals) : Prop :=
  (exists tok, seqid st = Some tok /\ no_space tok)
  /\ (exists d, desc st = Some d /\ trimmed d /\ (LF ∉ d))
  /\ Forall (fun c => is_residue c = true) (concat (seq_ st)).

Definition locals_ok (q : wf_state) (st : locals) : Prop :=
  match q with
  | Start => seq_ st = []
  | HeaderSeen => header_ok st /\ concat (seq_ st) = []
  | InSequence => header_ok st /\ concat (seq_ st) <> []
  end.

(** The remainder of the header line that [format] writes. *)
Definition header_rest (d : str) : str :=
  match d with [] => [] | _ :: _ => SP :: d end ++ [LF].

(** The text written for a list of records. *)
Definition format_all (rs : list record) (wrap : option wrap_arg) : str :=
  concat (map (fun r => format r wrap) rs).

(** Two records, the first on two sequence lines, and a blank last
    line. *)
Definition ex_two_records : str :=
  u ">NP_055309.2 TNRC6A" ++ [LF] ++ u "MRELEAKAT" ++ [LF]
  ++ u "LLQQ" ++ [LF]
  ++ u ">ENO94161.1" ++ [LF] ++ u "MSTNPKPQRK" ++ [LF] ++ [LF].

(** Three records of which two share an id. *)
Definition ex_records : list record :=
  [ Record_ (Some (u "sequence")) (u "ACGT") None;
    Record_ (Some (u "NP_002433.1")) (u "MRELEAKAT") (Some (u "first"));
    Record_ (Some (u "sequence")) (u "TTTT") (Some (u "second")) ].

(** ** Vocabulary of the further properties *)

(** The fields of a record as [parse] sets them: both absent, or an id
    without whitespace and a stripped description. *)
Definition parsed_shape (r : record) : Prop :=
  (self_id r = None /\ self_desc r = None)
  \/ (exists tok d, self_id r = Some tok /\ no_space tok
                    /\ self_desc r = Some d /\ trimmed d).

Definition locals_shape (st : locals) : Prop :=
  (seqid st = None /\ desc st = None)
  \/ (exists tok d, seqid st = Some tok /\ no_space tok
                    /\ desc st = Some d /\ trimmed d).

(** No line feed in any field of a record, or of the locals. *)
Definition no_LF_opt (o : option str) : Prop :=
  match o with
  | Some s => LF ∉ s
  | None => True
  end.

Definition record_no_LF (r : record) : Prop :=
  no_LF_opt (self_id r) /\ (LF ∉ self_seq r) /\ no_LF_opt (self_desc r).

Definition locals_no_LF (st : locals) : Prop :=
  no_LF_opt (seqid st) /\ (LF ∉ concat (seq_ st)) /\ no_LF_opt (desc st).

(** The number of header lines. *)
Definition count_headers (lines : list str) : nat :=
  length (filter (fun l => is_header l = true) lines).

(** * Properties *)

(** ** Compression sniffing *)

(** What the loop over [d] computes.  A tuple key matches as soon as the
    file starts with any one of its members, so the first three kinds
    are decided by the first byte alone, and the entry of [lz4] is never
    reached: its first byte [04] is in the tuple of [zip]. *)
Lemma sniff_first_byte (b : byte) (rest : list byte) :
  sniff (b :: rest) =
    if in_tuple b [x1f; x8b; x08] then u "gz"
    else if in_tuple b [x42; x5a; x68] then u "bz2"
    else if in_tuple b [x50; x4b; x03; x04] then u "zip"
    else if startswith (b :: rest) [x28; xb5; x2f; xfd] then u "zstandard"
    else u "plain".
Proof.
  destruct rest as [|b1 [|b2 [|b3 rest]]]; destruct b; reflexivity.
Qed.

Lemma sniff_empty : sniff [] = u "plain".
Proof. reflexivity. Qed.

(** C1 (defect in the code): a file that starts with the lz4 signature
    [04 22 4d 18] is classified as [zip], not as [lz4], because its first
    byte is a member of the tuple stored under [zip]; and a file that
    starts with the single byte [42] is classified as [bz2] although the
    bzip2 signature [42 5a 68] is not there. *)
Theorem sniff_lz4_signature_is_zip :
  (forall rest, sniff (x04 :: x22 :: x4d :: x18 :: rest) = u "zip")
  /\ (forall rest fs filename,
        get_compression_type
          (<[filename := x04 :: x22 :: x4d :: x18 :: rest]> fs)
          filename = Ok (u "zip"))
  /\ sniff [x42; x41; x4e; x41; x4e; x41] = u "bz2".
Proof.
  split; [|split]; try reflexivity.
  intros rest fs filename. unfold get_compression_type.
  rewrite lookup_insert_eq. reflexivity.
Qed.

(** ** Opening *)

Lemma get_open_func_sniffed fs has_lz4 has_zstd filename content :
  fs !! filename = Some content ->
  get_open_func fs has_lz4 has_zstd filename =
    lookup_open_func has_lz4 has_zstd (sniff content) filename.
Proof.
  intros Hf. unfold get_open_func, get_compression_type. rewrite Hf.
  reflexivity.
Qed.

(** The three kinds that have an entry which is never [None]. *)
Lemma lookup_open_func_gz has_lz4 has_zstd filename :
  lookup_open_func has_lz4 has_zstd (u "gz") filename = Ok gzip_open.
Proof. destruct has_lz4, has_zstd; reflexivity. Qed.

Lemma lookup_open_func_bz2 has_lz4 has_zstd filename :
  lookup_open_func has_lz4 has_zstd (u "bz2") filename = Ok bz2_open.
Proof. destruct has_lz4, has_zstd; reflexivity. Qed.

Lemma lookup_open_func_plain has_lz4 has_zstd filename :
  lookup_open_func has_lz4 has_zstd (u "plain") filename = Ok builtin_open.
Proof. destruct has_lz4, has_zstd; reflexivity. Qed.

Lemma lookup_open_func_zip has_lz4 has_zstd filename :
  lookup_open_func has_lz4 has_zstd (u "zip") filename
  = Raise (KeyError (u "zip")).
Proof. destruct has_lz4, has_zstd; reflexivity. Qed.

(** C2 (defect in the code): [open_funcs] has no entry for [zip], so for
    a file that starts with the zip signature [50 4b 03 04] the look-up
    [open_funcs[compression_type]] raises [KeyError] and no open function
    is produced, whatever decoders are installed. *)
Theorem get_open_func_zip_raises :
  forall rest fs has_lz4 has_zstd filename,
    get_open_func (<[filename := x50 :: x4b :: x03 :: x04 :: rest]> fs)
                  has_lz4 has_zstd filename
    = Raise (KeyError (u "zip")).
Proof.
  intros. erewrite get_open_func_sniffed by apply lookup_insert_eq.
  apply lookup_open_func_zip.
Qed.

(** C5: when the kind is [zstandard] or [lz4] and the flag of that
    decoder is false, the look-up raises [ImportError] with the message
    [<kind> is required for: <filename>]; so for a file on which
    [get_compression_type] returns that kind, [get_open_func] raises it
    and [parse] ends with it without having yielded a record. *)
Theorem missing_decoder_raises :
  forall fs has_lz4 has_zstd open_rt filename kind,
    (kind = u "zstandard" /\ has_zstd = false)
    \/ (kind = u "lz4" /\ has_lz4 = false) ->
    let e := ImportError (kind ++ u " is required for: " ++ filename) in
    lookup_open_func has_lz4 has_zstd kind filename = Raise e
    /\ (get_compression_type fs filename = Ok kind ->
        get_open_func fs has_lz4 has_zstd filename = Raise e
        /\ parse fs has_lz4 has_zstd open_rt filename = ([], Some e)).
Proof.
  intros fs has_lz4 has_zstd open_rt filename kind Hk e.
  assert (Hl : lookup_open_func has_lz4 has_zstd kind filename = Raise e).
  { destruct Hk as [[-> ->]|[-> ->]]; [destruct has_lz4|destruct has_zstd];
      reflexivity. }
  split; [exact Hl|]. intros Hc.
  assert (Hg : get_open_func fs has_lz4 has_zstd filename = Raise e).
  { unfold get_open_func. rewrite Hc. exact Hl. }
  split; [exact Hg|]. unfold parse. rewrite Hg. reflexivity.
Qed.

Lemma missing_decoder_raises_witness :
  let fs : gmap str (list byte) :=
    {[ u "reads.fa.zst" := [x28; xb5; x2f; xfd; x00; x58] ]} in
  let e := ImportError (u "zstandard is required for: reads.fa.zst") in
  get_open_func fs true false (u "reads.fa.zst") = Raise e
  /\ parse fs true false (fun _ _ => ([], None)) (u "reads.fa.zst")
     = ([], Some e).
Proof.
  intros fs e.
  apply (missing_decoder_raises fs true false (fun _ _ => ([], None))
           (u "reads.fa.zst") (u "zstandard")).
  - left. split; reflexivity.
  - reflexivity.
Defined.

(** ** Whitespace stripping *)

Lemma lstrip_split (s : str) :
  exists ws, s = ws ++ lstrip s /\ all_space ws.
Proof.
  induction s as [|c s IH]; simpl.
  - exists []. split; [reflexivity|constructor].
  - destruct (isspace c) eqn:Hc.
    + destruct IH as (ws & Hs & Hws). exists (c :: ws). split.
      * simpl. congruence.
      * constructor; assumption.
    + exists []. split; [reflexivity|constructor].
Qed.

Lemma lstrip_length (s : str) : length (lstrip s) <= length s.
Proof.
  destruct (lstrip_split s) as (ws & Hs & _).
  rewrite Hs at 2. rewrite length_app. lia.
Qed.

Lemma lstrip_all_space (ws s : str) :
  all_space ws -> lstrip (ws ++ s) = lstrip s.
Proof.
  induction 1 as [|c ws Hc _ IH]; simpl; [reflexivity|].
  rewrite Hc. exact IH.
Qed.

Lemma lstrip_nonspace (c : char) (s : str) :
  isspace c = false -> lstrip (c :: s) = c :: s.
Proof. intros Hc. simpl. rewrite Hc. reflexivity. Qed.

Lemma lstrip_fixed_inv (s : str) :
  lstrip s = s -> s = [] \/ exists c s', s = c :: s' /\ isspace c = false.
Proof.
  destruct s as [|c s]; [left; reflexivity|]. simpl.
  destruct (isspace c) eqn:Hc.
  - intros H. pose proof (lstrip_length s) as Hl. rewrite H in Hl.
    simpl in Hl. lia.
  - right. eauto.
Qed.

Lemma lstrip_head (s : str) :
  lstrip s = [] \/ exists c s', lstrip s = c :: s' /\ isspace c = false.
Proof.
  induction s as [|c s IH]; simpl; [left; reflexivity|].
  destruct (isspace c) eqn:Hc; [exact IH|]. right. eauto.
Qed.

Lemma lstrip_idem (s : str) : lstrip (lstrip s) = lstrip s.
Proof.
  destruct (lstrip_head s) as [->|(c & s' & -> & Hc)]; [reflexivity|].
  apply lstrip_nonspace, Hc.
Qed.

Lemma rstrip_split (s : str) :
  exists ws, s = rstrip s ++ ws /\ all_space ws.
Proof.
  destruct (lstrip_split (reverse s)) as (ws & Hs & Hws).
  exists (reverse ws). split.
  - unfold rstrip. rewrite <- reverse_app, <- Hs.
    symmetry. apply reverse_involutive.
  - apply Forall_reverse. exact Hws.
Qed.

Lemma rstrip_all_space (s ws : str) :
  all_space ws -> rstrip (s ++ ws) = rstrip s.
Proof.
  intros Hws. unfold rstrip. rewrite reverse_app.
  rewrite lstrip_all_space; [reflexivity|]. apply Forall_reverse, Hws.
Qed.

Lemma rstrip_nonspace (s : str) (c : char) :
  isspace c = false -> rstrip (s ++ [c]) = s ++ [c].
Proof.
  intros Hc. unfold rstrip. rewrite reverse_snoc.
  rewrite lstrip_nonspace by exact Hc.
  rewrite reverse_cons, reverse_involutive. reflexivity.
Qed.

Lemma rstrip_nil : rstrip [] = [].
Proof. reflexivity. Qed.

Lemma rstrip_last (s : str) :
  rstrip s = [] \/ exists s' c, rstrip s = s' ++ [c] /\ isspace c = false.
Proof.
  unfold rstrip.
  destruct (lstrip_head (reverse s)) as [->|(c & s' & -> & Hc)].
  - left. reflexivity.
  - right. exists (reverse s'), c. rewrite reverse_cons. auto.
Qed.

Lemma rstrip_idem (s : str) : rstrip (rstrip s) = rstrip s.
Proof.
  unfold rstrip. rewrite reverse_involutive, lstrip_idem. reflexivity.
Qed.

Lemma rstrip_fixed_inv (s : str) :
  rstrip s = s -> s = [] \/ exists s' c, s = s' ++ [c] /\ isspace c = false.
Proof. intros H. rewrite <- H. apply rstrip_last. Qed.

(** Stripping on the right keeps a first character that is not
    whitespace. *)
Lemma rstrip_cons_nonspace (c : char) (s : str) :
  isspace c = false -> exists s', rstrip (c :: s) = c :: s'.
Proof.
  intros Hc.
  destruct (rstrip_split (c :: s)) as (ws & Hs & Hws).
  destruct (rstrip (c :: s)) as [|c' s'] eqn:Hr.
  - simpl in Hs. subst ws. apply Forall_cons in Hws as [Hws _]. congruence.
  - simpl in Hs. injection Hs as <- _. eauto.
Qed.

Lemma strip_trimmed (s : str) : trimmed (strip s).
Proof.
  unfold trimmed, strip. split; [|apply rstrip_idem].
  destruct (lstrip_head s) as [->|(c & s' & -> & Hc)]; [reflexivity|].
  destruct (rstrip_cons_nonspace c s' Hc) as (s'' & ->).
  apply lstrip_nonspace, Hc.
Qed.

(** The core of a string between two runs of whitespace. *)
Lemma strip_core (a s b : str) :
  all_space a -> all_space b -> trimmed s -> strip (a ++ s ++ b) = s.
Proof.
  intros Ha Hb [Hl Hr]. unfold strip. rewrite lstrip_all_space by exact Ha.
  destruct (lstrip_fixed_inv s Hl) as [->|(c & s' & -> & Hc)].
  - simpl. destruct (lstrip_split b) as (ws & Hb' & _).
    destruct (lstrip_head b) as [->|(c & s' & Hs & Hc)]; [reflexivity|].
    exfalso. rewrite Hs in Hb'. rewrite Hb' in Hb.
    apply Forall_app in Hb as [_ Hb]. apply Forall_cons in Hb as [Hb _].
    congruence.
  - change ((c :: s') ++ b) with (c :: (s' ++ b)).
    rewrite lstrip_nonspace by exact Hc.
    change (c :: (s' ++ b)) with ((c :: s') ++ b).
    rewrite rstrip_all_space by exact Hb. exact Hr.
Qed.

Lemma strip_split (s : str) :
  exists a b, s = a ++ strip s ++ b /\ all_space a /\ all_space b.
Proof.
  destruct (lstrip_split s) as (a & Hs & Ha).
  destruct (rstrip_split (lstrip s)) as (b & Hs' & Hb).
  exists a, b. unfold strip. rewrite <- Hs'. auto.
Qed.

Lemma no_space_trimmed (s : str) : no_space s -> trimmed s.
Proof.
  intros Hs. split.
  - destruct Hs as [|c s Hc _]; [reflexivity|]. apply lstrip_nonspace, Hc.
  - destruct s as [|c s _] using rev_ind; [reflexivity|].
    apply Forall_app in Hs as [_ Hs]. apply Forall_cons in Hs as [Hc _].
    apply rstrip_nonspace, Hc.
Qed.

Lemma all_space_LF : all_space [LF].
Proof. repeat constructor. Qed.

Lemma strip_line (s : str) : trimmed s -> strip (s ++ [LF]) = s.
Proof.
  intros Hs. apply (strip_core [] s [LF]); [constructor|apply all_space_LF|].
  exact Hs.
Qed.

(** ** Header lines *)

(** Every string is a run of non-whitespace followed by nothing or by a
    remainder that starts with whitespace. *)
Lemma token_split (s : str) :
  exists tok rest, s = tok ++ rest /\ no_space tok /\ starts_with_space rest.
Proof.
  induction s as [|c s (tok & rest & Hs & Htok & Hrest)].
  - exists [], []. repeat split; [constructor|left; reflexivity].
  - destruct (isspace c) eqn:Hc.
    + exists [], (c :: s). repeat split; [constructor|right; eauto].
    + exists (c :: tok), rest. subst s. repeat split; [|exact Hrest].
      constructor; assumption.
Qed.

(** The first element of [split] is the leading token. *)
Lemma split_first_token (c : char) (tok rest : str) :
  isspace c = false -> no_space tok -> starts_with_space rest ->
  exists ws, split (c :: tok ++ rest) = (c :: tok) :: ws.
Proof.
  intros Hc Htok Hrest. revert c Hc.
  induction Htok as [|c2 tok Hc2 _ IH]; intros c Hc.
  - simpl. rewrite Hc.
    destruct Hrest as [->|(c' & s' & -> & Hc')]; [eauto|].
    rewrite Hc'. eauto.
  - destruct (IH c2 Hc2) as (ws & Hws).
    change (split (c :: (c2 :: tok) ++ rest))
      with (if isspace c then split ((c2 :: tok) ++ rest)
            else if isspace c2 then [c] :: split ((c2 :: tok) ++ rest)
            else match split ((c2 :: tok) ++ rest) with
                 | w :: ws => (c :: w) :: ws
                 | [] => [[c]]
                 end).
    rewrite Hc, Hc2. change ((c2 :: tok) ++ rest) with (c2 :: tok ++ rest).
    rewrite Hws. eauto.
Qed.

(** [line.split()[0]] is defined for every line that starts with [>]. *)
Lemma split_header_nonempty (line : str) :
  startswith line (u ">") = true -> split line <> [].
Proof.
  destruct line as [|c line]; [discriminate|]. intros H.
  assert (c = GT) as ->.
  { change (u ">") with [GT] in H. simpl in H.
    case_bool_decide; [assumption|discriminate]. }
  destruct (token_split line) as (tok & rest & -> & Htok & Hrest).
  destruct (split_first_token GT tok rest eq_refl Htok Hrest) as (ws & ->).
  discriminate.
Qed.

Lemma is_header_cons (c : char) (s : str) :
  is_header (c :: s) = bool_decide (c = GT).
Proof.
  unfold is_header. change (u ">") with [GT]. simpl.
  apply andb_true_r.
Qed.

(** What the header branch of the loop body assigns: the id is the rest
    of the first token, the description the stripped remainder. *)
Lemma parse_line_header (st : locals) (tok rest : str) :
  no_space tok -> starts_with_space rest ->
  parse_line st (GT :: tok ++ rest) =
    (yield_if_seq st,
     {| seqid := Some tok; desc := Some (strip rest); seq_ := [] |}).
Proof.
  intros Htok Hrest. unfold parse_line.
  change (startswith (GT :: tok ++ rest) (u ">")) with true. cbv iota.
  destruct (split_first_token GT tok rest eq_refl Htok Hrest) as (ws & ->).
  simpl hd. unfold slice_from, len. change (Z.to_nat 1) with 1%nat.
  change (drop 1 (GT :: tok)) with tok.
  replace (Z.to_nat (Z.of_nat (length tok) + 1)) with (S (length tok)) by lia.
  change (drop (S (length tok)) (GT :: tok ++ rest))
    with (drop (length tok) (tok ++ rest)).
  rewrite drop_app_length. reflexivity.
Qed.

Lemma parse_line_body (st : locals) (line : str) :
  is_header line = false ->
  parse_line st line =
    ([], {| seqid := seqid st; desc := desc st;
            seq_ := seq_ st ++ [strip line] |}).
Proof. unfold parse_line, is_header. intros ->. reflexivity. Qed.

(** ** The loop of parse *)

Lemma parse_loop_app (st : locals) (l1 l2 : list str) :
  parse_loop st (l1 ++ l2) =
    (fst (parse_loop st l1) ++ fst (parse_loop (snd (parse_loop st l1)) l2),
     snd (parse_loop (snd (parse_loop st l1)) l2)).
Proof.
  revert st. induction l1 as [|l l1 IH]; intros st; simpl.
  - destruct (parse_loop st l2); reflexivity.
  - destruct (parse_line st l) as [out st'].
    rewrite IH. destruct (parse_loop st' l1) as [outs st''].
    simpl. destruct (parse_loop st'' l2). simpl.
    rewrite app_assoc. reflexivity.
Qed.

(** Lines that are not headers yield nothing and are appended, stripped,
    to [seq]. *)
Lemma parse_loop_body (st : locals) (body : list str) :
  Forall (fun l => is_header l = false) body ->
  parse_loop st body =
    ([], {| seqid := seqid st; desc := desc st;
            seq_ := seq_ st ++ map strip body |}).
Proof.
  intros Hb. revert st.
  induction Hb as [|l body Hl _ IH]; intros st; simpl.
  - rewrite app_nil_r. destruct st; reflexivity.
  - rewrite parse_line_body by exact Hl. rewrite IH. simpl.
    rewrite <- app_assoc. reflexivity.
Qed.

Lemma parse_lines_run (lines : list str) :
  parse_lines lines = run_from parse_init lines.
Proof.
  unfold parse_lines, run_from. destruct (parse_loop parse_init lines).
  reflexivity.
Qed.

Lemma run_from_app (st : locals) (l1 l2 : list str) :
  run_from st (l1 ++ l2) =
    fst (parse_loop st l1) ++ run_from (snd (parse_loop st l1)) l2.
Proof.
  unfold run_from. rewrite parse_loop_app. simpl.
  rewrite app_assoc. reflexivity.
Qed.

(** A header line yields the pending record, if any, and what follows
    does not depend on the earlier state. *)
Lemma run_from_header (st : locals) (h : str) (rest : list str) :
  is_header h = true ->
  run_from st (h :: rest) = yield_if_seq st ++ run_from parse_init (h :: rest).
Proof.
  intros Hh. unfold run_from. simpl.
  unfold parse_line. unfold is_header in Hh. rewrite Hh.
  destruct (parse_loop _ rest) as [outs st'']. simpl.
  rewrite app_assoc. reflexivity.
Qed.

Lemma run_from_nil (st : locals) : run_from st [] = yield_if_seq st.
Proof. reflexivity. Qed.

Lemma run_from_cons (st : locals) (l : str) (ls : list str) :
  run_from st (l :: ls) =
    fst (parse_line st l) ++ run_from (snd (parse_line st l)) ls.
Proof.
  unfold run_from. cbn [parse_loop]. destruct (parse_line st l) as [out st'].
  cbn [fst snd]. destruct (parse_loop st' ls) as [outs st'']. simpl.
  rewrite app_assoc. reflexivity.
Qed.

Lemma run_from_boundary (st : locals) (rest : list str) :
  at_boundary rest = true ->
  run_from st rest = yield_if_seq st ++ run_from parse_init rest.
Proof.
  destruct rest as [|h rest]; simpl; intros Hb.
  - rewrite !run_from_nil. simpl. rewrite app_nil_r. reflexivity.
  - apply run_from_header, Hb.
Qed.

Lemma yield_if_seq_body (i dsc : option str) (body : list str) :
  body <> [] ->
  yield_if_seq {| seqid := i; desc := dsc; seq_ := map strip body |}
  = [Record_ i (concat (map strip body)) dsc].
Proof. destruct body; [congruence|reflexivity]. Qed.

(** A header line followed by body lines up to a record boundary yields
    exactly one record for them, after the pending one. *)
Lemma run_from_block (st : locals) (tok r : str) (body rest : list str) :
  no_space tok -> starts_with_space r ->
  body <> [] -> Forall (fun l => is_header l = false) body ->
  at_boundary rest = true ->
  run_from st ((GT :: tok ++ r) :: body ++ rest) =
    yield_if_seq st
    ++ Record_ (Some tok) (concat (map strip body)) (Some (strip r))
    :: run_from parse_init rest.
Proof.
  intros Htok Hr Hne Hbody Hrest.
  rewrite run_from_cons, parse_line_header by assumption. simpl.
  f_equal. rewrite run_from_app, parse_loop_body by exact Hbody. simpl.
  rewrite run_from_boundary by exact Hrest.
  rewrite yield_if_seq_body by exact Hne. reflexivity.
Qed.

Lemma parse_lines_block (pre : list str) (tok r : str) (body rest : list str) :
  no_space tok -> starts_with_space r ->
  body <> [] -> Forall (fun l => is_header l = false) body ->
  at_boundary rest = true ->
  parse_lines (pre ++ (GT :: tok ++ r) :: body ++ rest) =
    parse_lines pre
    ++ Record_ (Some tok) (concat (map strip body)) (Some (strip r))
    :: parse_lines rest.
Proof.
  intros. rewrite !parse_lines_run, run_from_app.
  rewrite run_from_block by assumption.
  unfold run_from at 2. rewrite <- app_assoc. reflexivity.
Qed.

Lemma all_space_starts (ws : str) : all_space ws -> starts_with_space ws.
Proof.
  destruct 1 as [|c ws Hc _]; [left; reflexivity|right; eauto].
Qed.

Lemma strip_all_space (ws : str) : all_space ws -> strip ws = [].
Proof.
  intros Hws. apply (strip_core [] [] ws); [constructor|exact Hws|].
  split; reflexivity.
Qed.

(** ** Records produced by parse *)

(** C6: the text [">NP_055309.2 TNRC6A\nMRELEAKAT\n"] parses to exactly
    one record, with id [NP_055309.2], sequence [MRELEAKAT] and
    description text [TNRC6A], and the [description] property of that
    record is [">NP_055309.2 TNRC6A"]. *)
Theorem parse_example :
  parse_text ex_text
  = [Record_ (Some (u "NP_055309.2")) (u "MRELEAKAT") (Some (u "TNRC6A"))]
  /\ map description (parse_text ex_text) = [u ">NP_055309.2 TNRC6A"].
Proof. split; reflexivity. Qed.

(** C4 as stated fails: for the header line [">id\n"], which has nothing
    after the id token, the record has the empty string as [desc], not
    [None]. *)
Lemma parse_bare_header_desc_not_None :
  map self_desc (parse_text (u ">id" ++ [LF] ++ u "ACGT" ++ [LF]))
  = [Some []]
  /\ ~ (forall r, In r (parse_text (u ">id" ++ [LF] ++ u "ACGT" ++ [LF])) ->
                 self_desc r = None).
Proof.
  split; [reflexivity|]. intros H.
  specialize (H (Record_ (Some (u "id")) (u "ACGT") (Some []))).
  discriminate H. left. reflexivity.
Qed.

(** C4, amended: a header line [>tok] followed by whitespace only, that
    is, with no content after the id token, gives the record built from
    it the id [tok] and the empty string as description. *)
Theorem parse_bare_header_desc_empty :
  forall (pre : list str) (tok ws : str) (body rest : list str),
    no_space tok -> all_space ws ->
    body <> [] -> Forall (fun l => is_header l = false) body ->
    at_boundary rest = true ->
    parse_lines (pre ++ (GT :: tok ++ ws) :: body ++ rest) =
      parse_lines pre
      ++ Record_ (Some tok) (concat (map strip body)) (Some [])
      :: parse_lines rest.
Proof.
  intros pre tok ws body rest Htok Hws Hne Hbody Hrest.
  rewrite parse_lines_block; try assumption.
  - rewrite strip_all_space by exact Hws. reflexivity.
  - apply all_space_starts, Hws.
Qed.

Lemma parse_bare_header_desc_empty_witness :
  parse_lines ([] ++ (GT :: u "id" ++ [LF]) :: [u "ACGT" ++ [LF]] ++ []) =
    parse_lines []
    ++ Record_ (Some (u "id")) (concat (map strip [u "ACGT" ++ [LF]]))
         (Some [])
    :: parse_lines [].
Proof.
  apply (parse_bare_header_desc_empty [] (u "id") [LF] [u "ACGT" ++ [LF]] []).
  - repeat constructor.
  - repeat constructor.
  - discriminate.
  - repeat constructor.
  - reflexivity.
Defined.

(** C9: lines that come before the first header line are collected while
    [seqid] and [desc] are still [None]; when the header line comes, a
    record is yielded whose id and description are [None] and whose
    sequence is those lines, stripped and joined. *)
Theorem parse_leading_lines :
  forall (pre : list str) (h : str) (rest : list str),
    pre <> [] -> Forall (fun l => is_header l = false) pre ->
    is_header h = true ->
    snd (parse_loop parse_init pre)
    = {| seqid := None; desc := None; seq_ := map strip pre |}
    /\ parse_lines (pre ++ h :: rest) =
         Record_ None (concat (map strip pre)) None
         :: parse_lines (h :: rest).
Proof.
  intros pre h rest Hne Hpre Hh.
  rewrite !parse_lines_run, run_from_app.
  rewrite parse_loop_body by exact Hpre. simpl.
  split; [reflexivity|].
  rewrite run_from_header by exact Hh.
  rewrite yield_if_seq_body by exact Hne. reflexivity.
Qed.

Lemma parse_leading_lines_witness :
  parse_lines ([u "ACGT" ++ [LF]; [LF]] ++ (u ">id" ++ [LF]) :: [u "TT"])
  = Record_ None (u "ACGT") None
    :: parse_lines ((u ">id" ++ [LF]) :: [u "TT"]).
Proof.
  apply (parse_leading_lines [u "ACGT" ++ [LF]; [LF]] (u ">id" ++ [LF])
           [u "TT"]).
  - discriminate.
  - repeat constructor.
  - reflexivity.
Defined.

(** ** to_dict *)

Lemma to_dict_snoc (rs : list record) (r : record) :
  to_dict (rs ++ [r]) = <[self_id r := r]> (to_dict rs).
Proof. unfold to_dict. rewrite foldl_snoc. reflexivity. Qed.

Lemma to_dict_lookup (rs : list record) (k : option str) :
  to_dict rs !! k = last (filter (fun r => self_id r = k) rs).
Proof.
  induction rs as [|r rs IH] using rev_ind; [reflexivity|].
  rewrite to_dict_snoc, filter_app, filter_singleton by exact rs.
  destruct (decide (self_id r = k)) as [Hk|Hk].
  - rewrite last_snoc. subst k. apply lookup_insert_eq.
  - rewrite app_nil_r, lookup_insert_ne by exact Hk. exact IH.
Qed.

Lemma to_dict_dom (rs : list record) :
  dom (to_dict rs) =@{gset (option str)} list_to_set (map self_id rs).
Proof.
  induction rs as [|r rs IH] using rev_ind; [apply dom_empty_L|].
  rewrite to_dict_snoc, dom_insert_L, IH, map_app.
  simpl. rewrite list_to_set_snoc_L. apply (comm_L (∪)).
Qed.

Lemma to_dict_size (rs : list record) :
  size (to_dict rs) = length (remove_dups (map self_id rs)).
Proof.
  rewrite <- (size_dom (D := gset (option str)) (to_dict rs)), to_dict_dom.
  rewrite <- (size_list_to_set (C := gset (option str)))
    by apply NoDup_remove_dups.
  f_equal. apply set_eq. intros k.
  rewrite !elem_of_list_to_set, elem_of_remove_dups. reflexivity.
Qed.

(** C8: [to_dict] maps the id of every record of the input to a record;
    under each id it holds the last record of the input that has this id;
    and it has as many entries as the input has distinct ids. *)
Theorem to_dict_last_wins :
  forall rs : list record,
    (forall r, r ∈ rs -> is_Some (to_dict rs !! self_id r))
    /\ (forall k, to_dict rs !! k = last (filter (fun r => self_id r = k) rs))
    /\ (forall k r, to_dict rs !! k = Some r -> self_id r = k /\ r ∈ rs)
    /\ size (to_dict rs) = length (remove_dups (map self_id rs)).
Proof.
  intros rs. split; [|split; [|split]].
  - intros r Hr. apply elem_of_dom. rewrite to_dict_dom.
    apply elem_of_list_to_set, list_elem_of_fmap. eauto.
  - apply to_dict_lookup.
  - intros k r Hk. rewrite to_dict_lookup in Hk.
    apply last_Some in Hk as (l' & Hl).
    assert (Hin : r ∈ filter (fun r => self_id r = k) rs).
    { rewrite Hl. apply elem_of_app. right. apply list_elem_of_singleton.
      reflexivity. }
    apply list_elem_of_filter in Hin. exact Hin.
  - apply to_dict_size.
Qed.

(** ** Formatting *)

Lemma concat_snoc_LF (l : list str) (y : str) :
  concat (l ++ [y ++ [LF]]) = (concat l ++ y) ++ [LF].
Proof. rewrite concat_app. simpl. rewrite app_nil_r, app_assoc. reflexivity. Qed.

(** The output of [format] always ends with a line feed. *)
Lemma format_ends_LF (self : record) (wrap : option wrap_arg) :
  exists x, format self wrap = x ++ [LF].
Proof.
  unfold format. destruct (truthy_wrap _).
  - destruct (range _ _ _) as [|i rng _] using rev_ind.
    + exists (description self). reflexivity.
    + rewrite map_app, app_assoc. cbn [map]. rewrite concat_snoc_LF. eauto.
  - exists (description self ++ [LF] ++ self_seq self). cbn [map app concat].
    rewrite ?app_nil_r, <- ?app_assoc. reflexivity.
Qed.

(** C10: [str(record)] is [record.format(wrap=70)], which is also what
    [format] gives with no argument, with its trailing whitespace
    removed: what is removed is whitespace and ends with the final line
    feed, and what is left does not end with whitespace, so not with a
    line feed. *)
Theorem str_is_format_70_rstripped :
  forall self : record,
    __str__ self = rstrip (format self (Some (WInt 70)))
    /\ __str__ self = rstrip (format self None)
    /\ (exists ws, format self (Some (WInt 70)) = __str__ self ++ ws
                   /\ all_space ws /\ last ws = Some LF)
    /\ (forall c, last (__str__ self) = Some c -> isspace c = false).
Proof.
  intros self. split; [reflexivity|]. split; [reflexivity|]. split.
  - unfold __str__.
    destruct (rstrip_split (format self (Some (WInt 70)))) as (ws & Hs & Hws).
    exists ws. split; [exact Hs|]. split; [exact Hws|].
    destruct (format_ends_LF self (Some (WInt 70))) as (x & Hx).
    destruct ws as [|c ws _] using rev_ind.
    + exfalso. rewrite app_nil_r in Hs.
      destruct (rstrip_last (format self (Some (WInt 70))))
        as [He|(s' & c & He & Hc)].
      * rewrite He, Hx in Hs. destruct x; discriminate.
      * rewrite He, Hx in Hs. apply app_inj_tail in Hs as [_ <-].
        discriminate.
    + rewrite Hx, app_assoc in Hs. apply app_inj_tail in Hs as [_ <-].
      apply last_snoc.
  - intros c Hc. unfold __str__ in Hc.
    destruct (rstrip_last (format self (Some (WInt 70))))
      as [He|(s' & c' & He & Hc')]; rewrite He in Hc.
    + discriminate.
    + rewrite last_snoc in Hc. congruence.
Qed.

(** *** Sequence lines *)

Lemma format_seq_lines (self : record) (wrap : option wrap_arg) :
  format self wrap =
    description self ++ [LF]
    ++ concat (map (fun l => l ++ [LF])
                 (seq_lines self (default default_wrap wrap))).
Proof.
  unfold format, seq_lines. destruct (truthy_wrap _).
  - rewrite concat_app, map_map. cbn [concat app].
    rewrite <- app_assoc. reflexivity.
  - cbn [map app concat]. rewrite ?app_nil_r, <- ?app_assoc. reflexivity.
Qed.

Lemma range_step_pos (L N : Z) :
  (0 <= L)%Z -> (0 < N)%Z ->
  range 0 L N = map (fun k => (Z.of_nat k * N)%Z) (seq 0 (chunk_count L N)).
Proof.
  intros HL HN. unfold range, range_len, chunk_count.
  destruct (Z.ltb_spec 0 N) as [_|]; [|lia].
  rewrite Z.sub_0_r, Z.max_r by (apply Z.div_pos; lia).
  apply map_ext. intros k. lia.
Qed.

Lemma slice_chunk (s : str) (N : Z) (k : nat) :
  (0 < N)%Z ->
  slice s (Z.of_nat k * N) (Z.of_nat k * N + N) = chunk (Z.to_nat N) s k.
Proof.
  intros HN. unfold slice, chunk.
  replace (Z.to_nat (Z.of_nat k * N)) with (k * Z.to_nat N)%nat by nia.
  replace (Z.to_nat (Z.of_nat k * N + N))
    with (k * Z.to_nat N + Z.to_nat N)%nat by nia.
  symmetry. apply take_drop_commute.
Qed.

Lemma seq_lines_pos (self : record) (N : Z) :
  (0 < N)%Z ->
  seq_lines self (WInt N) =
    map (chunk (Z.to_nat N) (self_seq self))
        (seq 0 (chunk_count (len (self_seq self)) N)).
Proof.
  intros HN. unfold seq_lines. simpl.
  destruct (Z.eqb_spec N 0) as [|_]; [lia|]. simpl.
  rewrite range_step_pos by (unfold len; lia). rewrite map_map.
  apply map_ext. intros k. apply slice_chunk, HN.
Qed.

Lemma chunk_succ (m : nat) (s : str) (k : nat) :
  chunk m s (S k) = chunk m (drop m s) k.
Proof.
  unfold chunk. rewrite drop_drop. reflexivity.
Qed.

Lemma concat_chunks (m : nat) (cnt : nat) (s : str) :
  (length s <= cnt * m)%nat ->
  concat (map (chunk m s) (seq 0 cnt)) = s.
Proof.
  revert s. induction cnt as [|cnt IH]; intros s Hs.
  - destruct s; [reflexivity|simpl in Hs; lia].
  - rewrite <- cons_seq, <- seq_shift. cbn [map concat]. rewrite map_map.
    rewrite (map_ext _ _ (chunk_succ m s)).
    rewrite IH by (rewrite length_drop; lia).
    unfold chunk. simpl. rewrite drop_0. apply take_drop.
Qed.

Lemma chunk_count_bounds (L N : Z) :
  (0 <= L)%Z -> (0 < N)%Z ->
  let q := Z.of_nat (chunk_count L N) in
  (q * N <= L + N - 1 < q * N + N)%Z.
Proof.
  intros HL HN. unfold chunk_count.
  rewrite Z2Nat.id by (apply Z.div_pos; lia).
  pose proof (Z.div_mod (L + N - 1) N) as Hd.
  pose proof (Z.mod_pos_bound (L + N - 1) N HN) as Hm. lia.
Qed.

Lemma chunk_length (m : nat) (s : str) (k : nat) :
  length (chunk m s k) = Nat.min m (length s - k * m).
Proof. unfold chunk. rewrite length_take, length_drop. reflexivity. Qed.

Lemma seq_lines_concat (self : record) (wrap : wrap_arg) :
  match wrap with WInt n => (0 <= n)%Z | WNone => True end ->
  concat (seq_lines self wrap) = self_seq self.
Proof.
  destruct wrap as [|n]; intros Hn.
  - apply app_nil_r.
  - destruct (Z.eq_dec n 0%Z) as [->|Hz]; [apply app_nil_r|].
    rewrite seq_lines_pos by lia. apply concat_chunks.
    pose proof (chunk_count_bounds (len (self_seq self)) n) as Hb.
    unfold len in *. nia.
Qed.

(** C3 as stated fails: with no [wrap] argument the default width 70
    applies, so a sequence of 71 characters is written as a line of 70
    and a line of 1, not as a single line. *)
Lemma format_unset_wraps_at_70 :
  let r := Record_ (Some (u "a")) (replicate 71 65%N) None in
  format r None =
    description r ++ [LF] ++ replicate 70 65%N ++ [LF] ++ [65%N] ++ [LF]
  /\ format r None <> description r ++ [LF] ++ self_seq r ++ [LF].
Proof.
  split; [reflexivity|]. vm_compute. discriminate.
Qed.

(** C3, amended: for a positive [wrap = N] the sequence is written as
    lines that join to the sequence, each of exactly [N] characters
    except the last, which has [len(seq) mod N] characters, or [N] if
    that is zero; for [wrap = 0] and for [wrap = None] it is written as
    one line; with no [wrap] argument the output is that of [wrap = 70]. *)
Theorem format_wrap_lines :
  forall (self : record) (N : Z),
    (0 < N)%Z ->
    (exists lines : list str,
        format self (Some (WInt N)) =
          description self ++ [LF] ++ concat (map (fun l => l ++ [LF]) lines)
        /\ concat lines = self_seq self
        /\ (forall i l, lines !! i = Some l -> (S i < length lines)%nat ->
                        len l = N)
        /\ (forall l, last lines = Some l ->
                      len l = if (len (self_seq self) mod N =? 0)%Z then N
                              else (len (self_seq self) mod N)%Z))
    /\ format self (Some (WInt 0)) =
         description self ++ [LF] ++ self_seq self ++ [LF]
    /\ format self (Some WNone) =
         description self ++ [LF] ++ self_seq self ++ [LF]
    /\ format self None = format self (Some (WInt 70)).
Proof.
  intros self N HN. split; [|split; [|split]].
  2,3,4: reflexivity.
  exists (seq_lines self (WInt N)).
  split; [apply format_seq_lines|].
  split; [apply seq_lines_concat; lia|].
  rewrite seq_lines_pos by exact HN.
  set (s := self_seq self). set (cnt := chunk_count (len s) N).
  pose proof (chunk_count_bounds (len s) N ltac:(unfold len; lia) HN) as Hb.
  fold cnt in Hb. cbv zeta in Hb.
  assert (Hlen : forall k, (k < cnt)%nat ->
            len (chunk (Z.to_nat N) s k)
            = Z.min N (len s - Z.of_nat k * N)).
  { intros k Hk. unfold len. rewrite chunk_length. unfold len in Hb. nia. }
  split.
  - intros i l Hl Hi. rewrite length_map, length_seq in Hi.
    change (map ?f ?l) with (f <$> l) in Hl.
    rewrite list_lookup_fmap, lookup_seq_lt in Hl by lia.
    injection Hl as <-. simpl. rewrite Hlen by lia. nia.
  - intros l Hl. rewrite last_lookup, length_map, length_seq in Hl.
    destruct cnt as [|c] eqn:Hc; [discriminate|]. cbn [pred] in Hl.
    change (map ?f ?l) with (f <$> l) in Hl.
    rewrite list_lookup_fmap, lookup_seq_lt in Hl by lia.
    injection Hl as <-. simpl. rewrite Hlen by lia.
    set (r := (len s + N - 1 - Z.of_nat (S c) * N)%Z) in *.
    assert (Hs : len s = (N * Z.of_nat c + (r + 1))%Z) by (unfold r; lia).
    assert (Hr : (0 <= r < N)%Z) by (unfold r; lia).
    destruct (Z.eq_dec (r + 1)%Z N) as [He|He].
    + assert (Hm : (len s mod N = 0)%Z).
      { symmetry. apply (Z.mod_unique _ _ (Z.of_nat c + 1)%Z); lia. }
      rewrite Hm. simpl. lia.
    + assert (Hm : (len s mod N = r + 1)%Z).
      { symmetry. apply (Z.mod_unique _ _ (Z.of_nat c)); lia. }
      rewrite Hm. destruct (Z.eqb_spec (r + 1)%Z 0%Z); lia.
Qed.

Lemma format_wrap_lines_witness :
  let self := Record_ (Some (u "NP_055309.2")) (u "MRELEAKAT")
                (Some (u "TNRC6A")) in
  exists lines : list str,
    format self (Some (WInt 4)) =
      description self ++ [LF] ++ concat (map (fun l => l ++ [LF]) lines)
    /\ concat lines = self_seq self
    /\ (forall i l, lines !! i = Some l -> (S i < length lines)%nat ->
                    len l = 4%Z)
    /\ (forall l, last lines = Some l ->
                  len l = if (len (self_seq self) mod 4 =? 0)%Z then 4%Z
                          else (len (self_seq self) mod 4)%Z).
Proof.
  intros self. apply (format_wrap_lines self 4). reflexivity.
Defined.

(** ** Reading lines *)

Lemma iter_lines_line (l t : str) :
  (LF ∉ l) -> iter_lines (l ++ LF :: t) = (l ++ [LF]) :: iter_lines t.
Proof.
  induction l as [|c l IH]; intros Hl; simpl.
  - reflexivity.
  - apply not_elem_of_cons in Hl as [Hc Hl].
    rewrite bool_decide_false by congruence. rewrite IH by exact Hl.
    reflexivity.
Qed.

Lemma iter_lines_lines (ls : list str) (t : str) :
  Forall (fun l => LF ∉ l) ls ->
  iter_lines (concat (map (fun l => l ++ [LF]) ls) ++ t)
  = map (fun l => l ++ [LF]) ls ++ iter_lines t.
Proof.
  induction 1 as [|l ls Hl _ IH]; [reflexivity|].
  cbn [map concat app]. rewrite <- !app_assoc. cbn [app].
  rewrite iter_lines_line by exact Hl. rewrite IH. reflexivity.
Qed.

Lemma iter_lines_shape (text : str) : Forall line_shape (iter_lines text).
Proof.
  induction text as [|c text IH]; simpl; [constructor|].
  case_bool_decide as Hc.
  - constructor; [|exact IH]. subst c. exists []. split; [|right; reflexivity].
    apply not_elem_of_nil.
  - destruct (iter_lines text) as [|l ls].
    + constructor; [|constructor]. exists [c]. split; [|left; reflexivity].
      apply not_elem_of_cons. split; [congruence|apply not_elem_of_nil].
    + apply Forall_cons in IH as [(l0 & Hl0 & Hl) IH].
      constructor; [|exact IH]. exists (c :: l0). split.
      * apply not_elem_of_cons. split; [congruence|exact Hl0].
      * destruct Hl as [->| ->]; [left|right]; reflexivity.
Qed.

Lemma isspace_LF : isspace LF = true.
Proof. reflexivity. Qed.

Lemma no_space_not_LF (s : str) : no_space s -> LF ∉ s.
Proof.
  intros Hs Hin. unfold no_space in Hs. rewrite Forall_forall in Hs.
  specialize (Hs LF Hin). discriminate.
Qed.

(** Stripping the end of a line removes its line feed. *)
Lemma strip_no_LF (p r : str) : line_shape (p ++ r) -> LF ∉ strip r.
Proof.
  intros (l0 & Hl0 & Hl) Hin.
  destruct (strip_split r) as (a & b & Hr & Ha & Hb).
  destruct (strip_trimmed r) as [_ Ht].
  assert (Hsub : forall x, LF ∉ x -> p ++ a ++ strip r ++ b <> x).
  { intros x Hx <-. apply Hx. rewrite !elem_of_app. auto. }
  rewrite Hr in Hl. destruct Hl as [Hl|Hl]; [exact (Hsub l0 Hl0 Hl)|].
  destruct b as [|x b _] using rev_ind.
  - destruct (rstrip_fixed_inv _ Ht) as [He|(s' & c & He & Hc)].
    + rewrite He in Hin. apply not_elem_of_nil in Hin. exact Hin.
    + rewrite He, app_nil_r, !app_assoc in Hl.
      apply app_inj_tail in Hl as [_ ->]. discriminate.
  - rewrite !app_assoc in Hl. apply app_inj_tail in Hl as [Hl _].
    apply Hl0. rewrite <- Hl, !elem_of_app. auto.
Qed.

(** ** Round trip through format *)

Lemma is_residue_no_space (s : str) :
  Forall (fun c => is_residue c = true) s -> no_space s.
Proof.
  intros Hs. eapply Forall_impl; [exact Hs|]. intros c Hc.
  unfold is_residue in Hc.
  apply andb_prop in Hc as [Hc _]. apply negb_true_iff in Hc. exact Hc.
Qed.

Lemma is_residue_not_header (s t : str) :
  Forall (fun c => is_residue c = true) s -> is_header (s ++ [LF] ++ t) = false.
Proof.
  destruct 1 as [|c s Hc _]; [reflexivity|].
  change ((c :: s) ++ [LF] ++ t) with (c :: (s ++ [LF] ++ t)).
  rewrite is_header_cons. unfold is_residue in Hc.
  apply andb_prop in Hc as [_ Hc]. apply negb_true_iff in Hc. exact Hc.
Qed.

(** *** The locals of the parser on well-formed input *)

Lemma yield_if_seq_canonical (q : wf_state) (st : locals) :
  locals_ok q st -> q <> HeaderSeen -> Forall canonical (yield_if_seq st).
Proof.
  unfold yield_if_seq. destruct q; simpl; intros Hst Hq.
  - rewrite Hst. constructor.
  - congruence.
  - destruct Hst as [(Hid & Hd & Hres) Hne].
    destruct (seq_ st) as [|x xs] eqn:Hs; [constructor|].
    constructor; [|constructor]. repeat split; assumption.
Qed.

Lemma is_header_inv (l : str) :
  is_header l = true -> exists x, l = GT :: x.
Proof.
  destruct l as [|c x]; [discriminate|]. rewrite is_header_cons.
  intros Hc. apply bool_decide_eq_true in Hc. subst c. eauto.
Qed.

Lemma run_from_canonical (lines : list str) :
  forall (q : wf_state) (st : locals),
    Forall line_shape lines -> locals_ok q st -> wf_from q lines = true ->
    Forall canonical (run_from st lines).
Proof.
  induction lines as [|l ls IH]; intros q st Hshape Hst Hwf.
  - rewrite run_from_nil. apply (yield_if_seq_canonical q); [exact Hst|].
    destruct q; [discriminate|discriminate Hwf|discriminate].
  - apply Forall_cons in Hshape as [Hl Hshape]. rewrite run_from_cons.
    cbn [wf_from] in Hwf. destruct (is_header l) eqn:Hh.
    + destruct (is_header_inv l Hh) as (x & ->).
      destruct (token_split x) as (tok & r & -> & Htok & Hr).
      rewrite parse_line_header by assumption. cbn [fst snd].
      apply Forall_app. split.
      * apply (yield_if_seq_canonical q); [exact Hst|].
        destruct q; [discriminate|discriminate Hwf|discriminate].
      * apply (IH HeaderSeen); [exact Hshape| |destruct q; try exact Hwf;
                                               discriminate Hwf].
        split; [|reflexivity]. split; [eauto|]. split; [|constructor].
        exists (strip r). split; [reflexivity|]. split; [apply strip_trimmed|].
        apply (strip_no_LF (GT :: tok)). exact Hl.
    + rewrite parse_line_body by exact Hh. cbn [fst snd app].
      apply andb_prop in Hwf as [Hres Hwf].
      rewrite forallb_forall in Hres.
      assert (Hcat : concat (seq_ st ++ [strip l])
                     = concat (seq_ st) ++ strip l).
      { rewrite concat_app. simpl. rewrite app_nil_r. reflexivity. }
      assert (Hok : header_ok st ->
                header_ok {| seqid := seqid st; desc := desc st;
                             seq_ := seq_ st ++ [strip l] |}).
      { intros (Hid & Hd & Hc). split; [exact Hid|]. split; [exact Hd|].
        cbn [seq_]. rewrite Hcat. apply Forall_app. split; [exact Hc|].
        rewrite Forall_forall. intros c Hc'. apply Hres.
        apply list_elem_of_In. exact Hc'. }
      clear Hres.
      destruct q; [discriminate| |].
      * destruct Hst as [Hh' He].
        destruct (strip l) as [|c s] eqn:Hs;
          (eapply IH; [exact Hshape| |exact Hwf]);
          (split; [apply Hok, Hh'|]); cbn [seq_]; rewrite Hcat, He;
          [reflexivity|discriminate].
      * destruct Hst as [Hh' Hne].
        eapply IH; [exact Hshape| |exact Hwf].
        split; [apply Hok, Hh'|]. cbn [seq_]. rewrite Hcat.
        intros He. apply app_eq_nil in He as [He _]. exact (Hne He).
Qed.

(** The records of well-formed input are canonical. *)
Lemma parse_text_canonical (text : str) :
  well_formed text = true -> Forall canonical (parse_text text).
Proof.
  intros Hwf. unfold parse_text. rewrite parse_lines_run.
  apply (run_from_canonical _ Start); [apply iter_lines_shape| |exact Hwf].
  reflexivity.
Qed.

(** *** Parsing what format wrote *)

Lemma description_Some (tok d : str) (s : str) :
  description (Record_ (Some tok) s (Some d)) =
    GT :: tok ++ match d with [] => [] | _ :: _ => SP :: d end.
Proof.
  unfold description. destruct d as [|c d]; cbn [self_id self_desc fmt
    truthy_opt_str app join].
  - rewrite app_nil_r. reflexivity.
  - reflexivity.
Qed.

Lemma header_rest_starts (d : str) : starts_with_space (header_rest d).
Proof. right. destruct d; unfold header_rest; simpl; eauto. Qed.

Lemma header_rest_strip (d : str) : trimmed d -> strip (header_rest d) = d.
Proof.
  intros Hd. unfold header_rest. destruct d as [|c d].
  - reflexivity.
  - apply (strip_core [SP] (c :: d) [LF]); [|apply all_space_LF|exact Hd].
    repeat constructor.
Qed.

(** The lines of one formatted record, read back: its header line, then
    its sequence lines, which are not header lines and which strip and
    join to the sequence. *)
Lemma iter_lines_format (tok d s : str) (wrap : option wrap_arg) (t : str) :
  no_space tok -> LF ∉ d -> s <> [] ->
  Forall (fun c => is_residue c = true) s -> is_width wrap ->
  exists body : list str,
    iter_lines (format (Record_ (Some tok) s (Some d)) wrap ++ t)
    = (GT :: tok ++ header_rest d) :: body ++ iter_lines t
    /\ body <> []
    /\ Forall (fun l => is_header l = false) body
    /\ concat (map strip body) = s.
Proof.
  intros Htok Hd Hs Hres Hw.
  set (r := Record_ (Some tok) s (Some d)).
  set (lines := seq_lines r (default default_wrap wrap)).
  assert (Hcat : concat lines = s).
  { apply (seq_lines_concat r). destruct wrap as [[|n]|]; simpl; try exact I.
    - exact Hw.
    - lia. }
  assert (Hall : Forall (Forall (fun c => is_residue c = true)) lines).
  { apply Forall_concat. rewrite Hcat. exact Hres. }
  exists (map (fun l => l ++ [LF]) lines).
  split; [|split; [|split]].
  - rewrite format_seq_lines. fold lines. unfold r.
    rewrite description_Some.
    set (hdr := GT :: tok ++ match d with [] => [] | _ :: _ => SP :: d end).
    set (txt := concat (map (fun l => l ++ [LF]) lines)).
    replace ((hdr ++ [LF] ++ txt) ++ t) with (hdr ++ LF :: (txt ++ t))
      by (rewrite <- app_assoc; reflexivity).
    unfold hdr, txt.
    rewrite iter_lines_line.
    + rewrite iter_lines_lines.
      * unfold header_rest. cbn [app]. rewrite <- !app_assoc. reflexivity.
      * eapply Forall_impl; [exact Hall|]. intros l Hl.
        apply no_space_not_LF, is_residue_no_space, Hl.
    + apply not_elem_of_cons. split; [discriminate|].
      apply not_elem_of_app. split; [apply no_space_not_LF, Htok|].
      destruct d; [apply not_elem_of_nil|].
      apply not_elem_of_cons. split; [discriminate|exact Hd].
  - intros He. apply map_eq_nil in He. rewrite He in Hcat.
    simpl in Hcat. congruence.
  - apply Forall_map. eapply Forall_impl; [exact Hall|]. intros l Hl.
    rewrite <- (app_nil_r [LF]). apply (is_residue_not_header l []), Hl.
  - rewrite map_map. rewrite <- Hcat. f_equal.
    clear Hcat. induction Hall as [|l ls Hl _ IH]; [reflexivity|].
    cbn [map]. rewrite IH. f_equal.
    apply strip_line, no_space_trimmed, is_residue_no_space, Hl.
Qed.

Lemma format_all_boundary (rs : list record) (wrap : option wrap_arg) :
  Forall canonical rs -> is_width wrap ->
  at_boundary (iter_lines (format_all rs wrap)) = true.
Proof.
  intros Hrs Hw. destruct Hrs as [|r rs Hr _]; [reflexivity|].
  destruct r as [i s dsc].
  destruct Hr as ((tok & Hi & Htok) & (d & Hd & Ht & Hnl) & Hne & Hres).
  simpl in Hi, Hd, Hne, Hres. subst i dsc.
  unfold format_all. cbn [map concat].
  destruct (iter_lines_format tok d s wrap
              (concat (map (fun r => format r wrap) rs))
              Htok Hnl Hne Hres Hw) as (body & -> & _).
  reflexivity.
Qed.

(** Parsing the text that [format] wrote for canonical records gives
    these records back. *)
Lemma parse_format_all (rs : list record) (wrap : option wrap_arg) :
  Forall canonical rs -> is_width wrap ->
  parse_text (format_all rs wrap) = rs.
Proof.
  intros Hrs Hw. induction Hrs as [|r rs Hr Hrs IH]; [reflexivity|].
  pose proof (format_all_boundary rs wrap Hrs Hw) as Hb.
  destruct r as [i s dsc].
  destruct Hr as ((tok & Hi & Htok) & (d & Hd & Ht & Hnl) & Hne & Hres).
  simpl in Hi, Hd, Hne, Hres. subst i dsc.
  unfold parse_text, format_all in *. cbn [map concat].
  destruct (iter_lines_format tok d s wrap
              (concat (map (fun r => format r wrap) rs))
              Htok Hnl Hne Hres Hw) as (body & -> & Hbody & Hnh & Hcat).
  pose proof (parse_lines_block [] tok (header_rest d) body _ Htok
                (header_rest_starts d) Hbody Hnh Hb) as Hp.
  cbn [app] in Hp. rewrite Hp. change (parse_lines []) with (@nil record).
  rewrite header_rest_strip by exact Ht. rewrite Hcat, IH. reflexivity.
Qed.

(** C7: for well-formed input, formatting the parsed records with any
    width (no argument, [None], or an [int] that is not negative),
    joining the outputs and parsing the result gives the same records,
    that is, the same ids, sequences and descriptions in the same
    order. *)
Theorem parse_format_parse :
  forall (text : str) (wrap : option wrap_arg),
    well_formed text = true -> is_width wrap ->
    parse_text (format_all (parse_text text) wrap) = parse_text text.
Proof.
  intros text wrap Hwf Hw.
  apply parse_format_all; [|exact Hw]. apply parse_text_canonical, Hwf.
Qed.

Lemma parse_format_parse_witness :
  parse_text (format_all (parse_text ex_two_records) (Some (WInt 3)))
  = parse_text ex_two_records.
Proof.
  apply (parse_format_parse ex_two_records (Some (WInt 3))).
  - reflexivity.
  - simpl. lia.
Defined.

(** The conditions of the round trip cannot be dropped: whitespace
    inside a sequence line is lost when the line is cut, a [>] inside a
    sequence can start a written line, a record without a residue is
    written without a sequence line, and a negative [wrap] writes no
    sequence line at all. *)
Example roundtrip_inner_space :
  let text := u ">a" ++ [LF] ++ u "AC GT" ++ [LF] in
  map self_seq (parse_text text) = [u "AC GT"]
  /\ map self_seq (parse_text (format_all (parse_text text) (Some (WInt 2))))
     = [u "ACGT"].
Proof. split; reflexivity. Qed.

Example roundtrip_inner_mark :
  let text := u ">a" ++ [LF] ++ u "AC>GT" ++ [LF] in
  map self_seq (parse_text text) = [u "AC>GT"]
  /\ map self_seq (parse_text (format_all (parse_text text) (Some (WInt 2))))
     = [u "AC"; u "T"].
Proof. split; reflexivity. Qed.

Example roundtrip_blank_record :
  let text := u ">a" ++ [LF] ++ [LF] ++ u ">b" ++ [LF] ++ u "ACGT" ++ [LF] in
  map self_id (parse_text text) = [Some (u "a"); Some (u "b")]
  /\ map self_id (parse_text (format_all (parse_text text) None))
     = [Some (u "b")].
Proof. split; reflexivity. Qed.

Example roundtrip_negative_wrap :
  let text := u ">a" ++ [LF] ++ u "ACGT" ++ [LF] in
  parse_text (format_all (parse_text text) (Some (WInt (-1)))) = [].
Proof. reflexivity. Qed.

(** ** Worked instances *)

Lemma to_dict_last_wins_witness :
  to_dict ex_records !! Some (u "sequence")
  = Some (Record_ (Some (u "sequence")) (u "TTTT") (Some (u "second")))
  /\ size (to_dict ex_records) = 2%nat.
Proof.
  destruct (to_dict_last_wins ex_records) as (_ & Hlast & _ & Hsize).
  split.
  - rewrite Hlast. reflexivity.
  - rewrite Hsize. reflexivity.
Defined.

Lemma str_is_format_70_rstripped_witness :
  let self := Record_ (Some (u "NP_055309.2")) (u "MRELEAKAT")
                (Some (u "TNRC6A")) in
  __str__ self = u ">NP_055309.2 TNRC6A" ++ [LF] ++ u "MRELEAKAT"
  /\ isspace 84%N = false.
Proof.
  intros self.
  destruct (str_is_format_70_rstripped self) as (Hstr & _ & _ & Hlast).
  split.
  - rewrite Hstr. reflexivity.
  - apply Hlast. reflexivity.
Defined.

(** * Further properties *)

(** ** The header branch *)

(** X1: on a line that starts with [>], [line.split()] is not empty and
    its first element is the mark followed by a token without
    whitespace, so [line.split()[0][1:]] never fails and removes exactly
    the mark. *)
Theorem header_split_in_bounds :
  forall line : str,
    is_header line = true ->
    exists tok ws, split line = (GT :: tok) :: ws /\ no_space tok.
Proof.
  intros line Hh. destruct (is_header_inv line Hh) as (x & ->).
  destruct (token_split x) as (tok & rest & -> & Htok & Hrest).
  destruct (split_first_token GT tok rest eq_refl Htok Hrest) as (ws & Hws).
  eauto.
Qed.

Lemma header_split_in_bounds_witness :
  exists tok ws,
    split (u ">sp|P1 two words" ++ [LF]) = (GT :: tok) :: ws /\ no_space tok.
Proof.
  apply (header_split_in_bounds (u ">sp|P1 two words" ++ [LF])).
  reflexivity.
Defined.

(** ** How parse composes *)

Lemma parse_line_fst (st : locals) (l : str) :
  fst (parse_line st l) = if is_header l then yield_if_seq st else [].
Proof.
  unfold parse_line, is_header. destruct (startswith l (u ">")); reflexivity.
Qed.

Lemma parse_line_header_seq (st : locals) (l : str) :
  is_header l = true -> seq_ (snd (parse_line st l)) = [].
Proof. unfold parse_line, is_header. intros ->. reflexivity. Qed.

Lemma parse_lines_app_boundary (l1 l2 : list str) :
  at_boundary l2 = true ->
  parse_lines (l1 ++ l2) = parse_lines l1 ++ parse_lines l2.
Proof.
  intros Hb. rewrite !parse_lines_run, run_from_app.
  rewrite run_from_boundary by exact Hb. unfold run_from at 2.
  rewrite app_assoc. reflexivity.
Qed.

Lemma parse_lines_single_header (h : str) :
  is_header h = true -> parse_lines [h] = [].
Proof.
  intros Hh. rewrite parse_lines_run, run_from_cons, run_from_nil.
  rewrite parse_line_fst, Hh. unfold yield_if_seq.
  rewrite parse_line_header_seq by exact Hh. reflexivity.
Qed.

(** X2: a header line [>tok rest], the body lines that follow it and the
    boundary after them give exactly one record, between the records of
    what comes before and of what comes after: its id is [tok], its
    description the stripped [rest], and its sequence the stripped body
    lines joined. *)
Theorem parse_record_block :
  forall (pre : list str) (tok rest : str) (body post : list str),
    no_space tok -> starts_with_space rest ->
    body <> [] -> Forall (fun l => is_header l = false) body ->
    at_boundary post = true ->
    parse_lines (pre ++ (GT :: tok ++ rest) :: body ++ post) =
      parse_lines pre
      ++ Record_ (Some tok) (concat (map strip body)) (Some (strip rest))
      :: parse_lines post.
Proof. intros. apply parse_lines_block; assumption. Qed.

Lemma parse_record_block_witness :
  parse_lines ([] ++ (GT :: u "id1" ++ u "  some  text " ++ [LF])
                  :: [u " AC" ++ [LF]; u "GT  " ++ [LF]] ++ [u ">id2"]) =
    parse_lines []
    ++ Record_ (Some (u "id1"))
         (concat (map strip [u " AC" ++ [LF]; u "GT  " ++ [LF]]))
         (Some (strip (u "  some  text " ++ [LF])))
    :: parse_lines [u ">id2"].
Proof.
  apply (parse_record_block [] (u "id1") (u "  some  text " ++ [LF])
           [u " AC" ++ [LF]; u "GT  " ++ [LF]] [u ">id2"]).
  - repeat constructor.
  - right. eexists _, _. split; reflexivity.
  - discriminate.
  - repeat constructor.
  - reflexivity.
Defined.

(** X3: a header line that is directly followed by another header line,
    or by the end of the input, gives no record: the input parses as if
    that line were not there. *)
Theorem parse_header_without_body :
  forall (pre : list str) (h : str) (post : list str),
    is_header h = true -> at_boundary post = true ->
    parse_lines (pre ++ h :: post) = parse_lines pre ++ parse_lines post.
Proof.
  intros pre h post Hh Hb.
  rewrite parse_lines_app_boundary by exact Hh.
  change (h :: post) with ([h] ++ post).
  rewrite parse_lines_app_boundary by exact Hb.
  rewrite parse_lines_single_header by exact Hh. reflexivity.
Qed.

Lemma parse_header_without_body_witness :
  parse_lines ([u ">a" ++ [LF]; u "AC" ++ [LF]]
               ++ (u ">b" ++ [LF]) :: [u ">c" ++ [LF]; u "GT" ++ [LF]])
  = parse_lines [u ">a" ++ [LF]; u "AC" ++ [LF]]
    ++ parse_lines [u ">c" ++ [LF]; u "GT" ++ [LF]].
Proof.
  apply (parse_header_without_body [u ">a" ++ [LF]; u "AC" ++ [LF]]
           (u ">b" ++ [LF]) [u ">c" ++ [LF]; u "GT" ++ [LF]]);
    reflexivity.
Defined.

Lemma iter_lines_nil_inv (t : str) : iter_lines t = [] -> t = [].
Proof.
  destruct t as [|c t]; [reflexivity|]. simpl.
  case_bool_decide; [discriminate|]. destruct (iter_lines t); discriminate.
Qed.

Lemma iter_lines_app (x t : str) :
  iter_lines ((x ++ [LF]) ++ t) = iter_lines (x ++ [LF]) ++ iter_lines t.
Proof.
  induction x as [|c x IH]; [reflexivity|].
  cbn [app iter_lines]. case_bool_decide.
  - rewrite IH. reflexivity.
  - rewrite IH. destruct (iter_lines (x ++ [LF])) as [|l ls] eqn:He.
    + apply iter_lines_nil_inv in He. destruct x; discriminate.
    + reflexivity.
Qed.

Lemma iter_lines_header (t : str) : at_boundary (iter_lines (GT :: t)) = true.
Proof.
  cbn [iter_lines]. rewrite bool_decide_false by discriminate.
  destruct (iter_lines t); reflexivity.
Qed.

(** X4: the records of two texts put end to end are the records of the
    first followed by the records of the second, when the first is empty
    or ends with a line feed and the second is empty or starts with [>]. *)
Theorem parse_text_app :
  forall t1 t2 : str,
    (t1 = [] \/ exists x, t1 = x ++ [LF]) ->
    (t2 = [] \/ exists y, t2 = GT :: y) ->
    parse_text (t1 ++ t2) = parse_text t1 ++ parse_text t2.
Proof.
  intros t1 t2 H1 H2. destruct H1 as [->|(x & ->)]; [reflexivity|].
  destruct H2 as [->|(y & ->)].
  - rewrite !app_nil_r. reflexivity.
  - unfold parse_text. rewrite iter_lines_app.
    apply parse_lines_app_boundary, iter_lines_header.
Qed.

Lemma parse_text_app_witness :
  parse_text ((u ">a" ++ [LF] ++ u "AC" ++ [LF])
              ++ (u ">b x" ++ [LF] ++ u "GT"))
  = parse_text (u ">a" ++ [LF] ++ u "AC" ++ [LF])
    ++ parse_text (u ">b x" ++ [LF] ++ u "GT").
Proof.
  apply parse_text_app.
  - right. exists (u ">a" ++ [LF] ++ u "AC"). reflexivity.
  - right. eexists. reflexivity.
Defined.

(** ** What parse keeps true of its records *)

(** An invariant of the locals that every line of the input preserves
    makes every record yielded satisfy what the invariant gives at a
    [yield]. *)
Lemma run_from_invariant (Q : str -> Prop) (I : locals -> Prop)
    (P : record -> Prop) :
  (forall st, I st -> Forall P (yield_if_seq st)) ->
  (forall st l, Q l -> I st -> I (snd (parse_line st l))) ->
  forall lines st, Forall Q lines -> I st -> Forall P (run_from st lines).
Proof.
  intros Hyield Hstep lines.
  induction lines as [|l ls IH]; intros st Hq Hst.
  - rewrite run_from_nil. apply Hyield, Hst.
  - apply Forall_cons in Hq as [Hl Hq]. rewrite run_from_cons.
    apply Forall_app. split.
    + rewrite parse_line_fst. destruct (is_header l); [|constructor].
      apply Hyield, Hst.
    + apply IH; [exact Hq|]. apply Hstep; assumption.
Qed.

Lemma Forall_True_lines (lines : list str) : Forall (fun _ => True) lines.
Proof. induction lines; constructor; auto. Qed.

Lemma yield_if_seq_inv (st : locals) (r : record) :
  r ∈ yield_if_seq st ->
  r = Record_ (seqid st) (concat (seq_ st)) (desc st) /\ seq_ st <> [].
Proof.
  unfold yield_if_seq. destruct (seq_ st) as [|x xs] eqn:Hs.
  - intros H. apply not_elem_of_nil in H. contradiction.
  - intros H. apply list_elem_of_singleton in H. split; [exact H|discriminate].
Qed.

Lemma parse_line_shape (st : locals) (l : str) :
  locals_shape st -> locals_shape (snd (parse_line st l)).
Proof.
  intros Hst. destruct (is_header l) eqn:Hh.
  - destruct (is_header_inv l Hh) as (x & ->).
    destruct (token_split x) as (tok & r & -> & Htok & Hr).
    rewrite parse_line_header by assumption. right.
    exists tok, (strip r). repeat split; try assumption; apply strip_trimmed.
  - rewrite parse_line_body by exact Hh. exact Hst.
Qed.

Lemma parse_line_keeps_id (st : locals) (l : str) :
  seqid st <> None -> seqid (snd (parse_line st l)) <> None.
Proof.
  intros Hst. unfold parse_line. destruct (startswith l (u ">")).
  - discriminate.
  - exact Hst.
Qed.

Lemma run_from_has_id (lines : list str) (st : locals) :
  seqid st <> None ->
  Forall (fun r => self_id r <> None) (run_from st lines).
Proof.
  apply (run_from_invariant (fun _ => True) (fun st => seqid st <> None)).
  - intros st' Hst'. apply Forall_forall. intros r Hr.
    apply yield_if_seq_inv in Hr as [-> _]. exact Hst'.
  - intros st' l _. apply parse_line_keeps_id.
  - apply Forall_True_lines.
Qed.

(** Leading lines that are not header lines, then a record boundary. *)
Lemma leading_lines_split (lines : list str) :
  exists pre post,
    lines = pre ++ post
    /\ Forall (fun l => is_header l = false) pre
    /\ at_boundary post = true.
Proof.
  induction lines as [|l ls (pre & post & -> & Hpre & Hpost)].
  - exists [], []. repeat split. constructor.
  - destruct (is_header l) eqn:Hh.
    + exists [], (l :: pre ++ post). repeat split; [constructor|exact Hh].
    + exists (l :: pre), post. repeat split; [|exact Hpost].
      constructor; assumption.
Qed.

Lemma parse_lines_boundary_has_id (lines : list str) :
  at_boundary lines = true ->
  Forall (fun r => self_id r <> None) (parse_lines lines).
Proof.
  intros Hb. rewrite parse_lines_run. destruct lines as [|h ls].
  - constructor.
  - rewrite run_from_cons, parse_line_fst. simpl in Hb. rewrite Hb.
    cbn [yield_if_seq parse_init seq_ app].
    apply run_from_has_id. unfold parse_line. unfold is_header in Hb.
    rewrite Hb. discriminate.
Qed.

(** X5: in every record that [parse] yields, the id and the description
    are both [None], or the id is a string without whitespace and the
    description a string without whitespace at its ends.  Only the first
    record can have the id [None], and not even that one when the input
    starts with a header line. *)
Theorem parse_record_fields :
  forall lines : list str,
    Forall parsed_shape (parse_lines lines)
    /\ (forall r rs, parse_lines lines = r :: rs ->
                     Forall (fun r' => self_id r' <> None) rs)
    /\ (at_boundary lines = true ->
        Forall (fun r => self_id r <> None) (parse_lines lines)).
Proof.
  intros lines. split; [|split].
  - rewrite parse_lines_run.
    apply (run_from_invariant (fun _ => True) locals_shape).
    + intros st Hst. apply Forall_forall. intros r Hr.
      apply yield_if_seq_inv in Hr as [-> _]. exact Hst.
    + intros st l _. apply parse_line_shape.
    + apply Forall_True_lines.
    + left. split; reflexivity.
  - intros r rs Hp.
    destruct (leading_lines_split lines) as (pre & post & -> & Hpre & Hpost).
    rewrite parse_lines_app_boundary in Hp by exact Hpost.
    pose proof (parse_lines_boundary_has_id post Hpost) as Hid.
    rewrite parse_lines_run in Hp at 1. unfold run_from in Hp.
    rewrite parse_loop_body in Hp by exact Hpre. cbn [fst snd app] in Hp.
    unfold yield_if_seq in Hp. cbn [seq_ parse_init app] in Hp.
    destruct (map strip pre); cbn [app] in Hp.
    + rewrite Hp in Hid. apply Forall_cons in Hid as [_ Hid]. exact Hid.
    + injection Hp as _ <-. exact Hid.
  - apply parse_lines_boundary_has_id.
Qed.

Lemma parse_record_fields_witness :
  Forall (fun r => self_id r <> None)
    (parse_lines [u ">a  b " ++ [LF]; u "AC" ++ [LF]; u ">c"; u "GT"]).
Proof.
  apply (parse_record_fields
           [u ">a  b " ++ [LF]; u "AC" ++ [LF]; u ">c"; u "GT"]).
  reflexivity.
Defined.

Lemma parse_line_no_LF (st : locals) (l : str) :
  line_shape l -> locals_no_LF st -> locals_no_LF (snd (parse_line st l)).
Proof.
  intros Hl (Hi & Hs & Hd). destruct (is_header l) eqn:Hh.
  - destruct (is_header_inv l Hh) as (x & ->).
    destruct (token_split x) as (tok & r & -> & Htok & Hr).
    rewrite parse_line_header by assumption. split; [|split].
    + apply no_space_not_LF, Htok.
    + apply not_elem_of_nil.
    + apply (strip_no_LF (GT :: tok)). exact Hl.
  - rewrite parse_line_body by exact Hh. split; [exact Hi|split; [|exact Hd]].
    cbn [snd seq_]. rewrite concat_app. cbn [concat]. rewrite app_nil_r.
    apply not_elem_of_app. split; [exact Hs|].
    apply (strip_no_LF []). exact Hl.
Qed.

(** X6: no field of a record parsed from a text contains a line feed:
    not the id, not the description, not the sequence. *)
Theorem parse_text_no_line_feed :
  forall text : str, Forall record_no_LF (parse_text text).
Proof.
  intros text. unfold parse_text. rewrite parse_lines_run.
  apply (run_from_invariant line_shape locals_no_LF).
  - intros st Hst. apply Forall_forall. intros r Hr.
    apply yield_if_seq_inv in Hr as [-> _]. exact Hst.
  - apply parse_line_no_LF.
  - apply iter_lines_shape.
  - split; [exact I|]. split; [apply not_elem_of_nil|exact I].
Qed.

Lemma yield_if_seq_length (st : locals) : length (yield_if_seq st) <= 1.
Proof. unfold yield_if_seq. destruct (seq_ st); simpl; lia. Qed.

Lemma count_headers_cons (l : str) (ls : list str) :
  count_headers (l :: ls) =
    ((if is_header l then 1 else 0) + count_headers ls)%nat.
Proof.
  unfold count_headers. rewrite filter_cons.
  destruct (is_header l); destruct (decide _); try congruence; reflexivity.
Qed.

Lemma run_from_length (lines : list str) (st : locals) :
  length (run_from st lines) <= count_headers lines + 1.
Proof.
  revert st. induction lines as [|l ls IH]; intros st.
  - rewrite run_from_nil. pose proof (yield_if_seq_length st). simpl. lia.
  - rewrite run_from_cons, length_app, parse_line_fst, count_headers_cons.
    specialize (IH (snd (parse_line st l))).
    destruct (is_header l).
    + pose proof (yield_if_seq_length st). lia.
    + simpl. lia.
Qed.

(** X7: [parse] yields at most one record for each header line and one
    more for lines before the first header line; when the input starts
    with a header line, at most one for each header line. *)
Theorem parse_record_count :
  forall lines : list str,
    length (parse_lines lines) <= count_headers lines + 1
    /\ (at_boundary lines = true ->
        length (parse_lines lines) <= count_headers lines).
Proof.
  intros lines. rewrite parse_lines_run. split; [apply run_from_length|].
  destruct lines as [|h ls]; intros Hb.
  - simpl. lia.
  - simpl in Hb. rewrite run_from_cons, parse_line_fst, count_headers_cons, Hb.
    cbn [yield_if_seq parse_init seq_ app].
    pose proof (run_from_length ls (snd (parse_line parse_init h))). lia.
Qed.

Lemma parse_record_count_witness :
  length (parse_lines [u ">a"; u ">b"; u "AC"; u ">c"]) <= 3.
Proof.
  apply (parse_record_count [u ">a"; u ">b"; u "AC"; u ">c"]).
  reflexivity.
Defined.

Lemma parse_loop_prefix (l1 l2 : list str) :
  exists more,
    parse_lines (l1 ++ l2) = fst (parse_loop parse_init l1) ++ more.
Proof. rewrite parse_lines_run, run_from_app. eauto. Qed.

(** X8: when the file object raises after it has delivered some lines,
    [parse] ends with that exception after it has yielded the records
    that these lines complete: all the records of these lines except at
    most one, the record in progress, and the first records of what any
    longer input would give. *)
Theorem parse_read_error :
  forall (fs : gmap str (list byte)) (has_lz4 has_zstd : bool)
         (open_rt : open_func -> str -> list str * option exn)
         (filename : str) (func : open_func) (lines : list str) (e : exn),
    get_open_func fs has_lz4 has_zstd filename = Ok func ->
    open_rt func filename = (lines, Some e) ->
    let yielded := fst (parse fs has_lz4 has_zstd open_rt filename) in
    snd (parse fs has_lz4 has_zstd open_rt filename) = Some e
    /\ (exists pending, parse_lines lines = yielded ++ pending
                        /\ length pending <= 1)
    /\ (forall more, exists rest,
          parse_lines (lines ++ more) = yielded ++ rest).
Proof.
  intros fs has_lz4 has_zstd open_rt filename func lines e Hg Ho.
  unfold parse. rewrite Hg, Ho. cbn [fst snd].
  split; [reflexivity|]. split.
  - exists (yield_if_seq (snd (parse_loop parse_init lines))).
    split; [apply parse_lines_run|apply yield_if_seq_length].
  - intros more. apply parse_loop_prefix.
Qed.

Lemma parse_read_error_witness :
  let fs : gmap str (list byte) :=
    {[ u "cut.fa.gz" := [x1f; x8b; x08; x00] ]} in
  let open_rt := fun (_ : open_func) (_ : str) =>
                   ([u ">a" ++ [LF]; u "AC" ++ [LF]; u ">b" ++ [LF];
                     u "GT" ++ [LF]],
                    Some (DecoderError (u "EOFError"))) in
  snd (parse fs false false open_rt (u "cut.fa.gz"))
  = Some (DecoderError (u "EOFError")).
Proof.
  intros fs open_rt.
  apply (parse_read_error fs false false open_rt (u "cut.fa.gz") gzip_open
           [u ">a" ++ [LF]; u "AC" ++ [LF]; u ">b" ++ [LF]; u "GT" ++ [LF]]
           (DecoderError (u "EOFError")));
    reflexivity.
Defined.

(** ** Edge cases of format *)

Lemma range_empty (L n : Z) :
  (0 <= L)%Z -> (n < 0)%Z \/ ((0 < n)%Z /\ L = 0%Z) -> range 0 L n = [].
Proof.
  intros HL Hn. unfold range, range_len.
  destruct (Z.ltb_spec 0 n) as [Hpos|Hneg].
  - destruct Hn as [Hn|[_ ->]]; [lia|].
    rewrite Z.div_small by lia. reflexivity.
  - destruct Hn as [Hn|[Hn _]]; [|lia].
    assert (Hq : ((0 - L - n - 1) / - n <= 0)%Z).
    { apply Z.lt_succ_r. apply Z.div_lt_upper_bound; lia. }
    rewrite Z.max_l by exact Hq. reflexivity.
Qed.

(** X9: with a negative [wrap], or with an empty sequence and a [wrap]
    other than zero, [format] writes the header line and no sequence
    line at all. *)
Theorem format_header_only :
  forall (self : record) (n : Z),
    (n < 0)%Z \/ ((0 < n)%Z /\ self_seq self = []) ->
    format self (Some (WInt n)) = description self ++ [LF].
Proof.
  intros self n Hn. rewrite format_seq_lines.
  change (default default_wrap (Some (WInt n))) with (WInt n).
  unfold seq_lines, truthy_wrap, wrap_int.
  assert (Hz : (n =? 0)%Z = false) by (apply Z.eqb_neq; lia).
  rewrite Hz. cbn [negb]. rewrite range_empty.
  - reflexivity.
  - unfold len. lia.
  - destruct Hn as [Hn|[Hn Hs]]; [left; exact Hn|right].
    split; [exact Hn|]. rewrite Hs. reflexivity.
Qed.

Lemma format_header_only_witness :
  format (Record_ (Some (u "a")) (u "ACGT") None) (Some (WInt (-2)))
  = description (Record_ (Some (u "a")) (u "ACGT") None) ++ [LF].
Proof.
  apply (format_header_only (Record_ (Some (u "a")) (u "ACGT") None) (-2)).
  left. reflexivity.
Defined.

Lemma chunk_count_one (L N : Z) :
  (0 < L <= N)%Z -> chunk_count L N = 1%nat.
Proof.
  intros H. unfold chunk_count.
  replace ((L + N - 1) / N)%Z with 1%Z; [reflexivity|].
  apply Z.div_unique with (r := (L - 1)%Z); lia.
Qed.

(** X10: a [wrap] that is at least the length of a sequence that is not
    empty leaves the sequence on one line, as [wrap = 0] does. *)
Theorem format_wide_wrap :
  forall (self : record) (N : Z),
    (0 < len (self_seq self) <= N)%Z ->
    format self (Some (WInt N))
    = description self ++ [LF] ++ self_seq self ++ [LF].
Proof.
  intros self N HN. rewrite format_seq_lines.
  change (default default_wrap (Some (WInt N))) with (WInt N).
  rewrite seq_lines_pos by lia. rewrite chunk_count_one by exact HN.
  cbn [seq map concat]. unfold chunk. cbn [Nat.mul drop].
  unfold len in HN. rewrite drop_0, take_ge by lia.
  rewrite app_nil_r. reflexivity.
Qed.

Lemma format_wide_wrap_witness :
  format (Record_ (Some (u "a")) (u "ACGT") None) (Some (WInt 4))
  = description (Record_ (Some (u "a")) (u "ACGT") None)
    ++ [LF] ++ u "ACGT" ++ [LF].
Proof.
  apply (format_wide_wrap (Record_ (Some (u "a")) (u "ACGT") None) 4).
  split; reflexivity.
Defined.

Lemma concat_terminated_length (lines : list str) :
  length (concat (map (fun l => l ++ [LF]) lines))
  = (length (concat lines) + length lines)%nat.
Proof.
  induction lines as [|l ls IH]; [reflexivity|].
  cbn [map concat]. rewrite !length_app, IH. simpl. lia.
Qed.

(** X11: the length of the output of [format] for a positive [wrap = N]
    is the length of the header line, plus the length of the sequence,
    plus one line feed for each of the [ceil(len(seq) / N)] sequence
    lines. *)
Theorem format_length :
  forall (self : record) (N : Z),
    (0 < N)%Z ->
    len (format self (Some (WInt N)))
    = (len (description self) + 1 + len (self_seq self)
       + (len (self_seq self) + N - 1) / N)%Z.
Proof.
  intros self N HN. rewrite format_seq_lines.
  change (default default_wrap (Some (WInt N))) with (WInt N).
  unfold len. rewrite !length_app, concat_terminated_length.
  rewrite seq_lines_concat by lia.
  rewrite seq_lines_pos by exact HN. rewrite length_map, length_seq.
  unfold chunk_count, len. cbn [length].
  assert (0 <= (Z.of_nat (length (self_seq self)) + N - 1) / N)%Z
    by (apply Z.div_pos; lia).
  lia.
Qed.

Lemma format_length_witness :
  len (format (Record_ (Some (u "a")) (u "MRELEAKAT") None) (Some (WInt 4)))
  = (len (description (Record_ (Some (u "a")) (u "MRELEAKAT") None)) + 1
     + len (u "MRELEAKAT") + (len (u "MRELEAKAT") + 4 - 1) / 4)%Z.
Proof.
  apply (format_length (Record_ (Some (u "a")) (u "MRELEAKAT") None) 4).
  reflexivity.
Defined.

(** Every sequence line written for a positive [wrap] has at least one
    character. *)
Lemma seq_lines_chunks_nonempty (self : record) (N : Z) :
  (0 < N)%Z -> Forall (fun l => l <> []) (seq_lines self (WInt N)).
Proof.
  intros HN. rewrite seq_lines_pos by exact HN.
  apply Forall_forall. intros l Hl.
  apply list_elem_of_In, in_map_iff in Hl as (k & <- & Hk).
  apply in_seq in Hk.
  pose proof (chunk_count_bounds (len (self_seq self)) N
                ltac:(unfold len; lia) HN) as Hb. cbv zeta in Hb.
  intros He. apply (f_equal length) in He. rewrite chunk_length in He.
  simpl in He. unfold len in Hb, Hk.
  remember (chunk_count (Z.of_nat (length (self_seq self))) N) as cnt.
  assert (Hk' : (Z.of_nat k + 1 <= Z.of_nat cnt)%Z) by lia.
  assert (Hlt : (Z.of_nat k * N < Z.of_nat (length (self_seq self)))%Z)
    by nia.
  assert (Hkm : Z.of_nat (k * Z.to_nat N) = (Z.of_nat k * N)%Z)
    by (rewrite Nat2Z.inj_mul, Z2Nat.id; lia).
  lia.
Qed.

Lemma seq_lines_nonempty (self : record) (wrap : option wrap_arg) :
  is_width wrap -> self_seq self <> [] ->
  Forall (fun l => l <> []) (seq_lines self (default default_wrap wrap)).
Proof.
  intros Hw Hs.
  assert (Hone : Forall (fun l : str => l <> []) [self_seq self])
    by (constructor; [exact Hs|constructor]).
  destruct wrap as [[|n]|].
  - exact Hone.
  - simpl in Hw. destruct (Z.eq_dec n 0%Z) as [->|Hn]; [exact Hone|].
    apply seq_lines_chunks_nonempty. lia.
  - apply seq_lines_chunks_nonempty. reflexivity.
Qed.

(** X12: when the sequence ends with a character that is not whitespace,
    [str(record)] is [record.format(wrap=70)] without its last line feed
    and nothing else removed; when the sequence is empty, it is the
    header line with its trailing whitespace removed. *)
Theorem str_drops_last_line_feed :
  forall self : record,
    (forall c, last (self_seq self) = Some c -> isspace c = false ->
               format self (Some (WInt 70)) = __str__ self ++ [LF])
    /\ (self_seq self = [] -> __str__ self = rstrip (description self)).
Proof.
  intros self. split.
  - intros c Hc Hsp. apply last_Some in Hc as (s' & Hs).
    assert (Hne : self_seq self <> []) by (rewrite Hs; destruct s'; discriminate).
    pose proof (seq_lines_nonempty self (Some (WInt 70)) ltac:(simpl; lia) Hne)
      as Hall.
    pose proof (seq_lines_concat self (WInt 70) ltac:(simpl; lia)) as Hcat.
    unfold __str__. rewrite format_seq_lines.
    change (default default_wrap (Some (WInt 70))) with (WInt 70) in *.
    destruct (seq_lines self (WInt 70)) as [|l ls _] using rev_ind.
    { simpl in Hcat. congruence. }
    apply Forall_app in Hall as [_ Hl]. apply Forall_cons in Hl as [Hl _].
    rewrite concat_app in Hcat. cbn [concat] in Hcat.
    rewrite app_nil_r, Hs in Hcat.
    destruct l as [|x l' _] using rev_ind; [congruence|]. clear Hl.
    rewrite app_assoc in Hcat. apply app_inj_tail in Hcat as [_ ->].
    rewrite map_app. cbn [map]. rewrite concat_snoc_LF.
    rewrite !app_assoc. rewrite rstrip_all_space by apply all_space_LF.
    rewrite rstrip_nonspace by exact Hsp. reflexivity.
  - intros Hs. unfold __str__. rewrite format_seq_lines.
    change (default default_wrap (Some (WInt 70))) with (WInt 70).
    unfold seq_lines. change (truthy_wrap (WInt 70)) with true. cbv iota.
    rewrite Hs, range_empty;
      [|reflexivity|right; split; reflexivity].
    cbn [map concat]. rewrite app_nil_r.
    apply rstrip_all_space, all_space_LF.
Qed.

Lemma str_drops_last_line_feed_witness :
  let self := Record_ (Some (u "NP_055309.2")) (u "MRELEAKAT")
                (Some (u "TNRC6A")) in
  format self (Some (WInt 70)) = __str__ self ++ [LF].
Proof.
  intros self. apply (str_drops_last_line_feed self) with (c := 84%N);
    reflexivity.
Defined.

(** ** Header lines written and read back *)



(** ** Writing records and reading them back *)







(** ** Detection and opening *)

(** X16: a file that starts with the whole signature of gzip
    ([1f 8b 08]), of bzip2 ([42 5a 68]), of zip ([50 4b 03 04]) or of
    zstandard ([28 b5 2f fd]) is classified as that kind, whatever
    follows the signature. *)
Theorem sniff_signatures :
  forall rest : list byte,
    sniff (x1f :: x8b :: x08 :: rest) = u "gz"
    /\ sniff (x42 :: x5a :: x68 :: rest) = u "bz2"
    /\ sniff (x50 :: x4b :: x03 :: x04 :: rest) = u "zip"
    /\ sniff (x28 :: xb5 :: x2f :: xfd :: rest) = u "zstandard".
Proof.
  intros rest. rewrite !sniff_first_byte. repeat split; reflexivity.
Qed.

Lemma sniff_range (content : list byte) :
  sniff content ∈ [u "gz"; u "bz2"; u "zip"; u "zstandard"; u "plain"].
Proof.
  destruct content as [|b rest].
  - rewrite sniff_empty. repeat constructor.
  - rewrite sniff_first_byte.
    repeat (match goal with |- context [if ?c then _ else _] =>
                              destruct c end);
      repeat constructor.
Qed.

(** X17: [get_compression_type] returns one of [gz], [bz2], [zip],
    [zstandard] and [plain], and never [lz4]; so [get_open_func] never
    returns [lz4.open], whether lz4 is installed or not. *)
Theorem lz4_never_detected :
  forall (fs : gmap str (list byte)) (has_lz4 has_zstd : bool)
         (filename : str),
    (forall kind, get_compression_type fs filename = Ok kind ->
                  kind ∈ [u "gz"; u "bz2"; u "zip"; u "zstandard"; u "plain"]
                  /\ kind <> u "lz4")
    /\ get_open_func fs has_lz4 has_zstd filename <> Ok lz4_open.
Proof.
  intros fs has_lz4 has_zstd filename.
  assert (Hkind : forall kind,
            kind ∈ [u "gz"; u "bz2"; u "zip"; u "zstandard"; u "plain"] ->
            kind <> u "lz4"
            /\ lookup_open_func has_lz4 has_zstd kind filename
               <> Ok lz4_open).
  { intros kind Hk.
    repeat (apply elem_of_cons in Hk as [->|Hk]);
      [| | | | |apply not_elem_of_nil in Hk; contradiction];
      (split; [discriminate|]);
      destruct has_lz4, has_zstd; discriminate. }
  unfold get_open_func, get_compression_type.
  destruct (fs !! filename) as [content|]; [|split; [|discriminate]].
  - split.
    + intros kind Hk. injection Hk as <-.
      split; [apply sniff_range|]. apply Hkind, sniff_range.
    + apply (Hkind (sniff content)), sniff_range.
  - intros kind Hk. discriminate Hk.
Qed.

Lemma lz4_never_detected_witness :
  u "zip" ∈ [u "gz"; u "bz2"; u "zip"; u "zstandard"; u "plain"]
  /\ u "zip" <> u "lz4".
Proof.
  apply (proj1 (lz4_never_detected {[ u "a.lz4" := [x04; x22; x4d; x18] ]}
                  true true (u "a.lz4")) (u "zip")).
  reflexivity.
Defined.

(** X18: a file that exists and is empty or starts with [>] is [plain];
    it is opened with the built-in [open] whichever decoders are
    installed, and [parse] yields the records of the lines that the file
    object delivers. *)
Theorem parse_plain_file :
  forall (fs : gmap str (list byte)) (has_lz4 has_zstd : bool)
         (open_rt : open_func -> str -> list str * option exn)
         (filename : str) (content : list byte) (lines : list str),
    fs !! filename = Some content ->
    content = [] \/ (exists rest, content = x3e :: rest) ->
    open_rt builtin_open filename = (lines, None) ->
    get_compression_type fs filename = Ok (u "plain")
    /\ get_open_func fs has_lz4 has_zstd filename = Ok builtin_open
    /\ parse fs has_lz4 has_zstd open_rt filename = (parse_lines lines, None).
Proof.
  intros fs has_lz4 has_zstd open_rt filename content lines Hf Hc Ho.
  assert (Hs : sniff content = u "plain").
  { destruct Hc as [->|(rest & ->)]; [reflexivity|].
    rewrite sniff_first_byte. reflexivity. }
  assert (Hg : get_open_func fs has_lz4 has_zstd filename = Ok builtin_open).
  { rewrite (get_open_func_sniffed _ _ _ _ content Hf), Hs.
    apply lookup_open_func_plain. }
  split; [|split; [exact Hg|]].
  - unfold get_compression_type. rewrite Hf, Hs. reflexivity.
  - unfold parse. rewrite Hg, Ho. reflexivity.
Qed.

Lemma parse_plain_file_witness :
  let fs : gmap str (list byte) :=
    {[ u "test.fasta" := [x3e; x61; x0a; x41; x43; x0a] ]} in
  let open_rt := fun (_ : open_func) (_ : str) =>
                   (iter_lines (u ">a" ++ [LF] ++ u "AC" ++ [LF]),
                    @None exn) in
  parse fs false false open_rt (u "test.fasta")
  = ([Record_ (Some (u "a")) (u "AC") (Some [])], None).
Proof.
  intros fs open_rt.
  apply (parse_plain_file fs false false open_rt (u "test.fasta")
           [x3e; x61; x0a; x41; x43; x0a]
           (iter_lines (u ">a" ++ [LF] ++ u "AC" ++ [LF]))).
  - reflexivity.
  - right. eexists. reflexivity.
  - reflexivity.
Defined.

(** X19: on a path that cannot be opened, [get_compression_type] raises
    the [OSError] of [open]; [get_open_func] and [parse] end with the same
    exception, and [parse] yields no record. *)
Theorem missing_file_raises :
  forall (fs : gmap str (list byte)) (has_lz4 has_zstd : bool)
         (open_rt : open_func -> str -> list str * option exn)
         (filename : str),
    fs !! filename = None ->
    get_compression_type fs filename = Raise (OSError filename)
    /\ get_open_func fs has_lz4 has_zstd filename = Raise (OSError filename)
    /\ parse fs has_lz4 has_zstd open_rt filename
       = ([], Some (OSError filename)).
Proof.
  intros fs has_lz4 has_zstd open_rt filename Hf.
  unfold parse, get_open_func, get_compression_type. rewrite Hf.
  repeat split.
Qed.

Lemma missing_file_raises_witness :
  parse ∅ true true (fun _ _ => ([], None)) (u "nowhere.fa")
  = ([], Some (OSError (u "nowhere.fa"))).
Proof.
  apply (missing_file_raises ∅ true true (fun _ _ => ([], None))
           (u "nowhere.fa")).
  reflexivity.
Defined.

(** X20: a file that starts with the gzip signature is opened with
    [gzip.open] and one that starts with the bzip2 signature with
    [bz2.open], whichever optional decoders are installed; one that
    starts with the zstandard signature is opened with [zstandard.open]
    when zstandard is installed. *)
Theorem get_open_func_decoders :
  forall (fs : gmap str (list byte)) (has_lz4 has_zstd : bool)
         (filename : str) (content rest : list byte),
    fs !! filename = Some content ->
    (content = x1f :: x8b :: x08 :: rest ->
     get_open_func fs has_lz4 has_zstd filename = Ok gzip_open)
    /\ (content = x42 :: x5a :: x68 :: rest ->
        get_open_func fs has_lz4 has_zstd filename = Ok bz2_open)
    /\ (content = x28 :: xb5 :: x2f :: xfd :: rest -> has_zstd = true ->
        get_open_func fs has_lz4 has_zstd filename = Ok zstandard_open).
Proof.
  intros fs has_lz4 has_zstd filename content rest Hf.
  rewrite (get_open_func_sniffed _ _ _ _ content Hf).
  assert (Hgz : sniff (x1f :: x8b :: x08 :: rest) = u "gz")
    by (rewrite sniff_first_byte; reflexivity).
  assert (Hbz : sniff (x42 :: x5a :: x68 :: rest) = u "bz2")
    by (rewrite sniff_first_byte; reflexivity).
  assert (Hzs : sniff (x28 :: xb5 :: x2f :: xfd :: rest) = u "zstandard")
    by (rewrite sniff_first_byte; reflexivity).
  split; [|split].
  - intros ->. rewrite Hgz. apply lookup_open_func_gz.
  - intros ->. rewrite Hbz. apply lookup_open_func_bz2.
  - intros -> ->. rewrite Hzs. destruct has_lz4; reflexivity.
Qed.

Lemma get_open_func_decoders_witness :
  get_open_func {[ u "a.gz" := [x1f; x8b; x08; x00] ]} false false (u "a.gz")
  = Ok gzip_open.
Proof.
  apply (get_open_func_decoders {[ u "a.gz" := [x1f; x8b; x08; x00] ]}
           false false (u "a.gz") [x1f; x8b; x08; x00] [x00]);
    reflexivity.
Defined.

(** ** The dictionary of records *)

(** X21: when no two records share an id, [to_dict] holds every record
    under its own id and has as many entries as there are records. *)
Theorem to_dict_distinct_ids :
  forall rs : list record,
    NoDup (map self_id rs) ->
    (forall r, r ∈ rs -> to_dict rs !! self_id r = Some r)
    /\ size (to_dict rs) = length rs.
Proof.
  intros rs Hnd. split.
  - induction rs as [|r' rs IH] using rev_ind; intros r Hr.
    + apply not_elem_of_nil in Hr. contradiction.
    + rewrite map_app in Hnd. apply NoDup_app in Hnd as (Hnd & Hfresh & _).
      rewrite to_dict_snoc. apply elem_of_app in Hr as [Hr|Hr].
      * rewrite lookup_insert_ne; [apply IH; assumption|].
        intros He. apply (Hfresh (self_id r)).
        -- change (map self_id rs) with (self_id <$> rs).
           apply list_elem_of_fmap_2, Hr.
        -- rewrite <- He. simpl. apply list_elem_of_singleton. reflexivity.
      * apply list_elem_of_singleton in Hr. subst r'.
        apply lookup_insert_eq.
  - rewrite <- (size_dom (D := gset (option str)) (to_dict rs)), to_dict_dom.
    rewrite size_list_to_set by exact Hnd. apply length_map.
Qed.

Lemma to_dict_distinct_ids_witness :
  let rs := [ Record_ (Some (u "a")) (u "AC") None;
              Record_ (Some (u "b")) (u "GT") None ] in
  size (to_dict rs) = 2%nat.
Proof.
  intros rs. apply (to_dict_distinct_ids rs).
  repeat constructor; intros H;
    repeat (apply elem_of_cons in H as [H|H]; [discriminate|]);
    apply not_elem_of_nil in H; exact H.
Defined.

(** X22: the dictionary of two lists of records put end to end is the
    dictionary of the second list, completed by the entries of the first
    list whose ids the second list does not have. *)
Theorem to_dict_app :
  forall rs1 rs2 : list record,
    to_dict (rs1 ++ rs2) = to_dict rs2 ∪ to_dict rs1.
Proof.
  intros rs1 rs2. induction rs2 as [|r rs2 IH] using rev_ind.
  - rewrite app_nil_r. symmetry. apply (left_id_L ∅ (∪)).
  - rewrite app_assoc, !to_dict_snoc, IH. apply insert_union_l.
Qed.

(** X23: looking up an id that no record of the input has finds nothing,
    and only such ids are missing; the dictionary of no records is
    empty. *)
Theorem to_dict_missing_id :
  forall (rs : list record) (k : option str),
    (to_dict rs !! k = None <-> k ∉ map self_id rs)
    /\ to_dict [] = ∅.
Proof.
  intros rs k. split; [|reflexivity].
  rewrite <- not_elem_of_dom, to_dict_dom, elem_of_list_to_set.
  reflexivity.
Qed.

Lemma to_dict_missing_id_witness :
  to_dict [Record_ (Some (u "a")) (u "AC") None] !! Some (u "b") = None.
Proof.
  apply (to_dict_missing_id [Record_ (Some (u "a")) (u "AC") None]
           (Some (u "b"))).
  intros H. apply list_elem_of_singleton in H. discriminate H.
Defined.

(** ** Iteration, membership and length *)

Lemma startswith_spec `{EqDecision A} (s p : list A) :
  startswith s p = true <-> exists b, s = p ++ b.
Proof.
  revert s. induction p as [|x p IH]; intros s; simpl.
  - split; eauto.
  - destruct s as [|c s].
    + split; [discriminate|]. intros (b & Hb). discriminate.
    + rewrite andb_true_iff, bool_decide_eq_true, IH. split.
      * intros (-> & b & ->). eauto.
      * intros (b & Hb). injection Hb as -> ->. eauto.
Qed.

Lemma str_contains_spec (s sub : str) :
  str_contains s sub = true <-> exists a b, s = a ++ sub ++ b.
Proof.
  induction s as [|c s IH].
  - cbn [str_contains]. rewrite orb_false_r, startswith_spec. split.
    + intros (b & ->). exists [], b. reflexivity.
    + intros (a & b & H). destruct a; [eauto|discriminate].
  - cbn [str_contains]. rewrite orb_true_iff, startswith_spec, IH. split.
    + intros [(b & ->)|(a & b & ->)].
      * exists [], b. reflexivity.
      * exists (c :: a), b. reflexivity.
    + intros (a & b & H). destruct a as [|c' a].
      * left. eauto.
      * right. injection H as _ ->. eauto.
Qed.

(** X24: [sub in record] is true exactly when [sub] occurs in the
    sequence as a substring; so the empty string is in every record, and
    so is the whole sequence. *)
Theorem contains_substring :
  forall (self : record) (sub : str),
    (__contains__ self sub = true
     <-> exists a b, self_seq self = a ++ sub ++ b)
    /\ __contains__ self [] = true
    /\ __contains__ self (self_seq self) = true.
Proof.
  intros self sub. unfold __contains__. split; [apply str_contains_spec|].
  split; apply str_contains_spec.
  - exists [], (self_seq self). reflexivity.
  - exists [], []. rewrite app_nil_r. reflexivity.
Qed.

Lemma contains_substring_witness :
  __contains__ (Record_ (Some (u "a")) (u "MRELEAKAT") None) (u "LEA") = true.
Proof.
  apply (proj2 (proj1 (contains_substring
                         (Record_ (Some (u "a")) (u "MRELEAKAT") None)
                         (u "LEA")))).
  exists (u "MRE"), (u "KAT"). reflexivity.
Defined.

(** X25: iterating over a record yields as many items as [len(record)],
    the items join to the sequence, and a string of one character is
    [in] the record exactly when the iteration yields it. *)
Theorem iter_len_contains :
  forall (self : record) (c : char),
    len (__iter__ self) = __len__ self
    /\ concat (__iter__ self) = self_seq self
    /\ (__contains__ self [c] = true <-> [c] ∈ __iter__ self).
Proof.
  intros self c. unfold __iter__, __len__, __contains__, len.
  split; [rewrite length_map; reflexivity|]. split.
  - induction (self_seq self) as [|x s IH]; [reflexivity|].
    cbn [map concat app]. rewrite IH. reflexivity.
  - rewrite str_contains_spec.
    change (map (fun c0 => [c0]) (self_seq self))
      with ((fun c0 => [c0]) <$> self_seq self).
    rewrite list_elem_of_fmap. split.
    + intros (a & b & ->). exists c. split; [reflexivity|].
      rewrite !elem_of_app. right. left. apply list_elem_of_singleton.
      reflexivity.
    + intros (x & Hx & Hin). injection Hx as <-.
      apply list_elem_of_split in Hin as (a & b & ->). eauto.
Qed.

Lemma iter_len_contains_witness :
  [77%N] ∈ __iter__ (Record_ (Some (u "a")) (u "MRELEAKAT") None).
Proof.
  apply (proj1 (proj2 (proj2 (iter_len_contains
                                (Record_ (Some (u "a")) (u "MRELEAKAT") None)
                                77%N)))).
  reflexivity.
Defined.
